(** * A to-do list component: its state, handlers and persistence

    Shallow embedding of [src/todo_app_minimal.jsx], a React function
    component that keeps a list of tasks in component state and mirrors it
    into [localStorage].

    - JavaScript strings are sequences of UTF-16 code units ([list N]).
    - JavaScript values are the ones this program can hold: what
      [JSON.parse] builds, what the handlers build, and [undefined].
    - Every handler is a function from the component state to a completion:
      either it returns (with the next state) or it throws.
    - The two [useEffect] hooks are computations over the component state,
      the storage area and the console, with [try]/[catch] written out.

    - Of the JSX the component returns, what decides whether rendering
      throws is modelled; markup, styles and focus are not. *)

From Stdlib Require Import String Ascii DecimalString.
From Stdlib Require Import List NArith ZArith Bool Lia.
#[local] Close Scope string_scope.
Import ListNotations.

(* ================================================================== *)
(** ** Strings *)

Definition code_unit := N.
Definition jsstring := list code_unit.

(** An ASCII literal as a JavaScript string. *)
Definition lit (s : string) : jsstring :=
  List.map N_of_ascii (list_ascii_of_string s).

Fixpoint str_eqb (a b : jsstring) : bool :=
  match a, b with
  | [], [] => true
  | x :: a', y :: b' => (x =? y)%N && str_eqb a' b'
  | _, _ => false
  end.

(** [WhiteSpace] and [LineTerminator] of ECMAScript: what
    [String.prototype.trim] strips. *)
Definition is_white_space (c : code_unit) : bool :=
  ((c =? 0x9) || (c =? 0xA) || (c =? 0xB) || (c =? 0xC) || (c =? 0xD)
   || (c =? 0x20) || (c =? 0xA0) || (c =? 0x1680)
   || ((0x2000 <=? c) && (c <=? 0x200A))
   || (c =? 0x2028) || (c =? 0x2029) || (c =? 0x202F) || (c =? 0x205F)
   || (c =? 0x3000) || (c =? 0xFEFF))%N.

Fixpoint trim_start (s : jsstring) : jsstring :=
  match s with
  | [] => []
  | c :: r => if is_white_space c then trim_start r else s
  end.

Definition trim_end (s : jsstring) : jsstring := rev (trim_start (rev s)).

(** [s.trim()] *)
Definition trim (s : jsstring) : jsstring := trim_end (trim_start s).

(** [s.slice(from, to)] for [0 <= from <= to]. *)
Definition slice (from to : nat) (s : jsstring) : jsstring :=
  firstn (to - from) (skipn from s).

Definition is_lead_surrogate (c : code_unit) : bool :=
  ((0xD800 <=? c) && (c <=? 0xDBFF))%N.
Definition is_trail_surrogate (c : code_unit) : bool :=
  ((0xDC00 <=? c) && (c <=? 0xDFFF))%N.

(** The code points of a string, each as the one or two code units that
    encode it (the string iterator). *)
Fixpoint code_points (s : jsstring) : list jsstring :=
  match s with
  | [] => []
  | c :: r =>
      match r with
      | d :: r' =>
          if is_lead_surrogate c && is_trail_surrogate d
          then [c; d] :: code_points r'
          else [c] :: code_points r
      | [] => [[c]]
      end
  end.

(** [n.toString()] for a natural number. *)
Definition nat_to_string (n : nat) : jsstring :=
  lit (NilZero.string_of_uint (Nat.to_uint n)).

(* ------------------------------------------------------------------ *)
(** *** [Number.prototype.toString(36)] on integers *)

Definition digit36 (d : N) : code_unit :=
  (if d <? 10 then 48 + d else 87 + d)%N.

(** Digits of [n] in base 36, most significant first; [fuel] bounds the
    number of digits. *)
Fixpoint digits36 (fuel : nat) (n : N) (acc : jsstring) : jsstring :=
  match fuel with
  | O => acc
  | S fuel' =>
      let acc' := digit36 (n mod 36) :: acc in
      if (n <? 36)%N then acc' else digits36 fuel' (n / 36) acc'
  end.

Definition N_toString36 (n : N) : jsstring :=
  digits36 (S (N.to_nat (N.log2 n))) n [].

(** [z.toString(36)] for an integer [z] that a Number holds exactly (below
    [2^53] in absolute value, as every clock reading is). *)
Definition toString36 (z : Z) : jsstring :=
  match z with
  | Z0 => N_toString36 0
  | Zpos p => N_toString36 (Npos p)
  | Zneg p => 45%N :: N_toString36 (Npos p)
  end.

(* ================================================================== *)
(** ** Values *)

#[warnings="-register-all"]
Inductive value : Type :=
| VUndef
| VNull
| VBool (b : bool)
| VNum (lexeme : jsstring)
    (** a Number, kept as the JSON literal it was read from *)
| VStr (s : jsstring)
| VArr (elems : list value)
| VObj (props : list (jsstring * value))
    (** own properties, in the order [OwnPropertyKeys] lists them *).

Inductive exn : Type :=
| TypeError
| SyntaxError
| DOMException
| Error.

Inductive completion (A : Type) : Type :=
| Normal (a : A)
| Throw (e : exn).
Arguments Normal {A} a.
Arguments Throw {A} e.

Definition bind {A B} (c : completion A) (k : A -> completion B) : completion B :=
  match c with
  | Normal a => k a
  | Throw e => Throw e
  end.

Notation "x <- c ;; k" := (bind c (fun x => k))
  (at level 61, c at next level, right associativity).

(** Keys of the task records. *)
Definition key_id : jsstring := Eval cbv in lit "id".
Definition key_text : jsstring := Eval cbv in lit "text".
Definition key_created_at : jsstring := Eval cbv in lit "created_at".

Fixpoint lookup (k : jsstring) (ps : list (jsstring * value)) : option value :=
  match ps with
  | [] => None
  | (k', v) :: r => if str_eqb k k' then Some v else lookup k r
  end.

(** [v.k] for [k] one of [id], [text]: no built-in prototype has such a
    property, and on arrays and strings they are neither an index nor
    [length]; so only an object's own property can answer. Reading a
    property of [undefined] or [null] throws. *)
Definition Get (v : value) (k : jsstring) : completion value :=
  match v with
  | VUndef | VNull => Throw TypeError
  | VObj ps => Normal (match lookup k ps with Some x => x | None => VUndef end)
  | _ => Normal VUndef
  end.

(** [v === s] for a string [s]. *)
Definition strict_eq_str (v : value) (s : jsstring) : bool :=
  match v with
  | VStr x => str_eqb x s
  | _ => false
  end.

(** A canonical array index: the decimal text of an integer in
    [0 .. 2^32 - 2], without leading zeros. *)
Definition is_digit (c : code_unit) : bool := ((48 <=? c) && (c <=? 57))%N.

Definition decimal_value (s : jsstring) : N :=
  fold_left (fun acc c => (10 * acc + (c - 48))%N) s 0%N.

Definition array_index (k : jsstring) : option N :=
  match k with
  | [] => None
  | c :: r =>
      if forallb is_digit k && (negb (c =? 48)%N || match r with [] => true | _ => false end)
         && (length k <=? 10)%nat && (decimal_value k <=? 4294967294)%N
      then Some (decimal_value k)
      else None
  end.

Fixpoint replace_value (k : jsstring) (v : value) (ps : list (jsstring * value))
  : list (jsstring * value) :=
  match ps with
  | [] => []
  | (k', v') :: r =>
      if str_eqb k k' then (k', v) :: r else (k', v') :: replace_value k v r
  end.

Fixpoint insert_index (i : N) (k : jsstring) (v : value)
  (ps : list (jsstring * value)) : list (jsstring * value) :=
  match ps with
  | [] => [(k, v)]
  | (k', v') :: r =>
      match array_index k' with
      | Some j => if (j <? i)%N then (k', v') :: insert_index i k v r
                  else (k, v) :: ps
      | None => (k, v) :: ps
      end
  end.

(** [CreateDataProperty] on an ordinary object: an existing key keeps its
    place and takes the new value; a new array index goes among the indices
    in ascending order; any other new key goes last. *)
Definition obj_define (ps : list (jsstring * value)) (k : jsstring) (v : value)
  : list (jsstring * value) :=
  match lookup k ps with
  | Some _ => replace_value k v ps
  | None =>
      match array_index k with
      | Some i => insert_index i k v ps
      | None => ps ++ [(k, v)]
      end
  end.

(** Own enumerable properties, as object spread copies them. *)
Definition own_props (v : value) : list (jsstring * value) :=
  match v with
  | VObj ps => ps
  | VArr l => combine (List.map nat_to_string (seq 0 (length l))) l
  | VStr s => combine (List.map nat_to_string (seq 0 (length s)))
                      (List.map (fun c => VStr [c]) s)
  | _ => []
  end.

(** The values [[...v]] spreads, when [v] is iterable. *)
Definition iterate (v : value) : completion (list value) :=
  match v with
  | VArr l => Normal l
  | VStr s => Normal (List.map VStr (code_points s))
  | _ => Throw TypeError
  end.

(** [l.map(f)] and [l.filter(f)] with a callback that may throw. *)
Fixpoint mapM (f : value -> completion value) (l : list value)
  : completion (list value) :=
  match l with
  | [] => Normal []
  | x :: r => y <- f x ;; r' <- mapM f r ;; Normal (y :: r')
  end.

Fixpoint filterM (f : value -> completion bool) (l : list value)
  : completion (list value) :=
  match l with
  | [] => Normal []
  | x :: r => b <- f x ;; r' <- filterM f r ;; Normal (if b then x :: r' else r')
  end.

(** [v.map(f)], [v.filter(f)]: only arrays have these methods. *)
Definition Array_map (f : value -> completion value) (v : value)
  : completion value :=
  match v with
  | VArr l => r <- mapM f l ;; Normal (VArr r)
  | _ => Throw TypeError
  end.

Definition Array_filter (f : value -> completion bool) (v : value)
  : completion value :=
  match v with
  | VArr l => r <- filterM f l ;; Normal (VArr r)
  | _ => Throw TypeError
  end.

(* ================================================================== *)
(** ** JSON *)

Module JSON.

Definition hex_digit (d : N) : code_unit :=
  (if d <? 10 then 48 + d else 87 + d)%N.

(** [UnicodeEscape]: a backslash, [u] and four lowercase hex digits. *)
Definition unicode_escape (c : code_unit) : jsstring :=
  [92; 117; hex_digit ((c / 4096) mod 16); hex_digit ((c / 256) mod 16);
   hex_digit ((c / 16) mod 16); hex_digit (c mod 16)]%N.

(** One code point that is a single code unit, as [QuoteJSONString]
    writes it. *)
Definition quote_unit (c : code_unit) : jsstring :=
  (if c =? 8 then [92; 98]
   else if c =? 9 then [92; 116]
   else if c =? 10 then [92; 110]
   else if c =? 12 then [92; 102]
   else if c =? 13 then [92; 114]
   else if c =? 34 then [92; 34]
   else if c =? 92 then [92; 92]
   else if (c <? 32) || is_lead_surrogate c || is_trail_surrogate c
        then unicode_escape c
   else [c])%N.

(** The walk over code points: a surrogate pair is copied, anything else
    goes through [quote_unit]. *)
Fixpoint quote_body (s : jsstring) : jsstring :=
  match s with
  | [] => []
  | c :: r =>
      match r with
      | d :: r' =>
          if is_lead_surrogate c && is_trail_surrogate d
          then c :: d :: quote_body r'
          else quote_unit c ++ quote_body r
      | [] => quote_unit c
      end
  end.

Definition QuoteJSONString (s : jsstring) : jsstring :=
  34%N :: quote_body s ++ [34%N].

Fixpoint join_comma (l : list jsstring) : jsstring :=
  match l with
  | [] => []
  | [x] => x
  | x :: r => x ++ 44%N :: join_comma r
  end.

Definition text_null : jsstring := Eval cbv in lit "null".
Definition text_true : jsstring := Eval cbv in lit "true".
Definition text_false : jsstring := Eval cbv in lit "false".

Section Stringify.

(** [Number::toString] of the Number a JSON literal denotes ([null] when
    it is not finite). Floating point is not modelled: the function is
    a parameter. *)
Variable number_to_string : jsstring -> jsstring.

(** [SerializeJSONProperty] without replacer or indentation; [None] is
    [undefined]. *)
Fixpoint serialize (v : value) : option jsstring :=
  match v with
  | VUndef => None
  | VNull => Some text_null
  | VBool b => Some (if b then text_true else text_false)
  | VNum x => Some (number_to_string x)
  | VStr s => Some (QuoteJSONString s)
  | VArr l =>
      Some (91%N :: join_comma
              (List.map (fun x => match serialize x with
                                  | Some t => t
                                  | None => text_null
                                  end) l) ++ [93%N])
  | VObj ps =>
      Some (123%N :: join_comma
              ((fix members (ps : list (jsstring * value)) : list jsstring :=
                  match ps with
                  | [] => []
                  | (k, x) :: r =>
                      match serialize x with
                      | Some t => (QuoteJSONString k ++ 58%N :: t) :: members r
                      | None => members r
                      end
                  end) ps) ++ [125%N])
  end.

(** [JSON.stringify(v)] *)
Definition stringify (v : value) : option jsstring := serialize v.

End Stringify.

(** *** Parsing *)

Definition is_json_ws (c : code_unit) : bool :=
  ((c =? 9) || (c =? 10) || (c =? 13) || (c =? 32))%N.

Fixpoint skip_ws (s : jsstring) : jsstring :=
  match s with
  | c :: r => if is_json_ws c then skip_ws r else s
  | [] => []
  end.

Definition hex_value (c : code_unit) : option N :=
  (if is_digit c then Some (c - 48)
   else if (97 <=? c) && (c <=? 102) then Some (c - 87)
   else if (65 <=? c) && (c <=? 70) then Some (c - 55)
   else None)%N.

Definition hex4 (a b c d : code_unit) : option code_unit :=
  match hex_value a, hex_value b, hex_value c, hex_value d with
  | Some x, Some y, Some z, Some w => Some (((x * 16 + y) * 16 + z) * 16 + w)%N
  | _, _, _, _ => None
  end.

(** The character a single-character escape stands for. *)
Definition escape_char (e : code_unit) : option code_unit :=
  (if e =? 34 then Some 34
   else if e =? 47 then Some 47
   else if e =? 92 then Some 92
   else if e =? 98 then Some 8
   else if e =? 102 then Some 12
   else if e =? 110 then Some 10
   else if e =? 114 then Some 13
   else if e =? 116 then Some 9
   else None)%N.

Definition cons_char (c : code_unit) (p : option (jsstring * jsstring))
  : option (jsstring * jsstring) :=
  match p with
  | Some (s, rest) => Some (c :: s, rest)
  | None => None
  end.

(** The characters of a string literal after its opening quote: the
    string's value and the input after the closing quote. *)
Fixpoint parse_chars (s : jsstring) : option (jsstring * jsstring) :=
  match s with
  | [] => None
  | c :: r =>
      if (c =? 34)%N then Some ([], r)
      else if (c =? 92)%N then
        match r with
        | [] => None
        | e :: r1 =>
            if (e =? 117)%N then
              match r1 with
              | h1 :: h2 :: h3 :: h4 :: r2 =>
                  match hex4 h1 h2 h3 h4 with
                  | Some u => cons_char u (parse_chars r2)
                  | None => None
                  end
              | _ => None
              end
            else
              match escape_char e with
              | Some u => cons_char u (parse_chars r1)
              | None => None
              end
        end
      else if (c <? 32)%N then None
      else cons_char c (parse_chars r)
  end.

Fixpoint span_digits (s : jsstring) : jsstring * jsstring :=
  match s with
  | c :: r => if is_digit c
              then let (ds, r') := span_digits r in (c :: ds, r')
              else ([], s)
  | [] => ([], [])
  end.

(** A number literal: its text and the input after it. *)
Definition lex_number (s : jsstring) : option (jsstring * jsstring) :=
  let (sign, s1) :=
    match s with
    | c :: r => if (c =? 45)%N then ([c], r) else ([], s)
    | [] => ([], s)
    end in
  match s1 with
  | [] => None
  | c :: r =>
      if negb (is_digit c) then None
      else
        let (int, s2) :=
          if (c =? 48)%N then ([c], r)
          else let (ds, r') := span_digits r in (c :: ds, r') in
        let frac :=
          match s2 with
          | d :: r2 =>
              if (d =? 46)%N then
                match span_digits r2 with
                | ([], _) => None
                | (ds, r3) => Some (d :: ds, r3)
                end
              else Some ([], s2)
          | [] => Some ([], s2)
          end in
        match frac with
        | None => None
        | Some (fr, s3) =>
            let exp :=
              match s3 with
              | e :: r3 =>
                  if (e =? 101)%N || (e =? 69)%N then
                    let (esign, r4) :=
                      match r3 with
                      | g :: r4 => if (g =? 43)%N || (g =? 45)%N
                                   then ([g], r4) else ([], r3)
                      | [] => ([], r3)
                      end in
                    match span_digits r4 with
                    | ([], _) => None
                    | (ds, r5) => Some (e :: esign ++ ds, r5)
                    end
                  else Some ([], s3)
              | [] => Some ([], s3)
              end in
            match exp with
            | None => None
            | Some (ex, s4) => Some (sign ++ int ++ fr ++ ex, s4)
            end
        end
  end.

Fixpoint strip_prefix (p s : jsstring) : option jsstring :=
  match p, s with
  | [], _ => Some s
  | x :: p', y :: s' => if (x =? y)%N then strip_prefix p' s' else None
  | _ :: _, [] => None
  end.

(** Recursive descent over the JSON grammar, one level at a time: each
    function below reads one construct and is given the parsers of what is
    nested in it. *)

(** A value; [elements] and [members] read what follows an opening bracket
    or brace. *)
Definition value_at
    (elements : jsstring -> option (list value * jsstring))
    (members : jsstring -> option (list (jsstring * value) * jsstring))
    (s : jsstring) : option (value * jsstring) :=
  match skip_ws s with
  | [] => None
  | c :: r =>
      if (c =? 34)%N then
        match parse_chars r with
        | Some (str, r') => Some (VStr str, r')
        | None => None
        end
      else if (c =? 91)%N then
        match skip_ws r with
        | d :: r' =>
            if (d =? 93)%N then Some (VArr [], r')
            else match elements r with
                 | Some (vs, r'') => Some (VArr vs, r'')
                 | None => None
                 end
        | [] => None
        end
      else if (c =? 123)%N then
        match skip_ws r with
        | d :: r' =>
            if (d =? 125)%N then Some (VObj [], r')
            else match members r with
                 | Some (ms, r'') =>
                     Some (VObj (fold_left
                                   (fun o m => obj_define o (fst m) (snd m))
                                   ms []), r'')
                 | None => None
                 end
        | [] => None
        end
      else if (c =? 110)%N then
        match strip_prefix text_null (c :: r) with
        | Some r' => Some (VNull, r')
        | None => None
        end
      else if (c =? 116)%N then
        match strip_prefix text_true (c :: r) with
        | Some r' => Some (VBool true, r')
        | None => None
        end
      else if (c =? 102)%N then
        match strip_prefix text_false (c :: r) with
        | Some r' => Some (VBool false, r')
        | None => None
        end
      else
        match lex_number (c :: r) with
        | Some (x, r') => Some (VNum x, r')
        | None => None
        end
  end.

(** The elements of an array, up to and including its closing bracket. *)
Definition elements_at
    (val : jsstring -> option (value * jsstring))
    (elements : jsstring -> option (list value * jsstring))
    (s : jsstring) : option (list value * jsstring) :=
  match val s with
  | None => None
  | Some (v, r) =>
      match skip_ws r with
      | c :: r' =>
          if (c =? 44)%N then
            match elements r' with
            | Some (vs, r'') => Some (v :: vs, r'')
            | None => None
            end
          else if (c =? 93)%N then Some ([v], r')
          else None
      | [] => None
      end
  end.

(** The members of an object, in the order of the text, up to and including
    its closing brace. *)
Definition members_at
    (val : jsstring -> option (value * jsstring))
    (members : jsstring -> option (list (jsstring * value) * jsstring))
    (s : jsstring) : option (list (jsstring * value) * jsstring) :=
  match skip_ws s with
  | q :: r0 =>
      if negb (q =? 34)%N then None
      else
        match parse_chars r0 with
        | None => None
        | Some (k, r1) =>
            match skip_ws r1 with
            | c :: r2 =>
                if negb (c =? 58)%N then None
                else
                  match val r2 with
                  | None => None
                  | Some (v, r3) =>
                      match skip_ws r3 with
                      | d :: r4 =>
                          if (d =? 44)%N then
                            match members r4 with
                            | Some (ms, r5) => Some ((k, v) :: ms, r5)
                            | None => None
                            end
                          else if (d =? 125)%N then Some ([(k, v)], r4)
                          else None
                      | [] => None
                      end
                  end
            | [] => None
            end
        end
  | [] => None
  end.

(** The three parsers. [fuel] bounds the number of nested calls; [parse]
    below gives enough of it (see [parse_value_fuel]). *)
Fixpoint parse_value (fuel : nat) (s : jsstring) : option (value * jsstring) :=
  match fuel with
  | O => None
  | S fuel' => value_at (parse_elements fuel') (parse_members fuel') s
  end

with parse_elements (fuel : nat) (s : jsstring)
  : option (list value * jsstring) :=
  match fuel with
  | O => None
  | S fuel' => elements_at (parse_value fuel') (parse_elements fuel') s
  end

with parse_members (fuel : nat) (s : jsstring)
  : option (list (jsstring * value) * jsstring) :=
  match fuel with
  | O => None
  | S fuel' => members_at (parse_value fuel') (parse_members fuel') s
  end.

(** [JSON.parse(text)] without reviver: one value with white space around
    it, or a [SyntaxError]. *)
Definition parse (text : jsstring) : completion value :=
  match parse_value (2 * length text + 2) text with
  | Some (v, r) =>
      match skip_ws r with
      | [] => Normal v
      | _ :: _ => Throw SyntaxError
      end
  | None => Throw SyntaxError
  end.

End JSON.


(* ================================================================== *)
(** ** The storage area *)

Module localStorage.

(** The items of the area, whether reading and writing are allowed (a
    browser may deny access or run out of quota), and the trace of the
    [setItem] calls made, oldest first. *)
Record t : Type := {
  items : list (jsstring * jsstring);
  readable : bool;
  writable : bool;
  setItem_calls : list (jsstring * jsstring)
}.

Fixpoint find (k : jsstring) (l : list (jsstring * jsstring)) : option jsstring :=
  match l with
  | [] => None
  | (k', v) :: r => if str_eqb k k' then Some v else find k r
  end.

Fixpoint put (k v : jsstring) (l : list (jsstring * jsstring))
  : list (jsstring * jsstring) :=
  match l with
  | [] => [(k, v)]
  | (k', v') :: r => if str_eqb k k' then (k', v) :: r else (k', v') :: put k v r
  end.

(** [localStorage.getItem(k)]; [None] is [null]. *)
Definition getItem (k : jsstring) (s : t) : completion (option jsstring) :=
  if readable s then Normal (find k (items s)) else Throw DOMException.

(** [localStorage.setItem(k, v)]: the call is recorded whether or not it
    succeeds. *)
Definition setItem (k v : jsstring) (s : t) : completion unit * t :=
  if writable s
  then (Normal tt,
        {| items := put k v (items s); readable := readable s;
           writable := writable s;
           setItem_calls := setItem_calls s ++ [(k, v)] |})
  else (Throw DOMException,
        {| items := items s; readable := readable s; writable := writable s;
           setItem_calls := setItem_calls s ++ [(k, v)] |}).

End localStorage.

(* ================================================================== *)
(** ** The component *)

Definition STORAGE_KEY : jsstring := Eval cbv in lit "todo_minimal_v1".

(** What one call of [addTask] reads from its environment: the clock
    ([Date.now()]), the text of a random draw in base 36
    ([Math.random().toString(36)]) and the time stamp
    ([new Date().toISOString()]). *)
Record Env : Type := {
  Date_now : Z;
  Math_random_toString36 : jsstring;
  Date_toISOString : jsstring
}.

Definition makeId (e : Env) : jsstring :=
  toString36 (Date_now e) ++ slice 2 7 (Math_random_toString36 e).

(** The record [addTask] builds. *)
Record Task : Type := {
  id : jsstring;
  text : jsstring;
  created_at : jsstring
}.

Definition task_value (t : Task) : value :=
  VObj [(key_id, VStr (id t)); (key_text, VStr (text t));
        (key_created_at, VStr (created_at t))].

(** The four [useState] cells. [tasks_ref] is the identity of the value
    held in [tasks]: every value given to [setTasks] is a new one (a new
    array, or what [JSON.parse] has just built), and the effect that
    persists compares identities. *)
Record State : Type := {
  tasks : value;
  tasks_ref : nat;
  input : jsstring;
  editingId : value;
  editingText : value
}.

Definition initial_state : State :=
  {| tasks := VArr []; tasks_ref := 0; input := [];
     editingId := VNull; editingText := VStr [] |}.

Definition setTasks (v : value) (st : State) : State :=
  {| tasks := v; tasks_ref := S (tasks_ref st); input := input st;
     editingId := editingId st; editingText := editingText st |}.

Definition setInput (s : jsstring) (st : State) : State :=
  {| tasks := tasks st; tasks_ref := tasks_ref st; input := s;
     editingId := editingId st; editingText := editingText st |}.

Definition setEditingId (v : value) (st : State) : State :=
  {| tasks := tasks st; tasks_ref := tasks_ref st; input := input st;
     editingId := v; editingText := editingText st |}.

Definition setEditingText (v : value) (st : State) : State :=
  {| tasks := tasks st; tasks_ref := tasks_ref st; input := input st;
     editingId := editingId st; editingText := v |}.

(** A handler returns a value and the next state, or throws. The state
    updates it asks for are applied in the order of the calls. The ids the
    handlers are given are strings, as [makeId] makes them. *)
Definition handler := State -> completion (value * State).

Definition addTask (e : Env) : handler := fun st =>
  let text := trim (input st) in
  if str_eqb text [] then Normal (VUndef, st)
  else
    let newTask := task_value {| id := makeId e; text := text;
                                 created_at := Date_toISOString e |} in
    prev <- iterate (tasks st) ;;
    Normal (VUndef, setInput [] (setTasks (VArr (prev ++ [newTask])) st)).

Definition deleteTask (id : jsstring) : handler := fun st =>
  next <- Array_filter
            (fun t => i <- Get t key_id ;; Normal (negb (strict_eq_str i id)))
            (tasks st) ;;
  Normal (VUndef, setTasks next st).

Definition startEdit (task : value) : handler := fun st =>
  i <- Get task key_id ;;
  x <- Get task key_text ;;
  Normal (VUndef, setEditingText x (setEditingId i st)).

Definition saveEdit (id : jsstring) : handler := fun st =>
  match editingText st with
  | VStr s =>
      let text := trim s in
      if str_eqb text []
      then Normal (VUndef, setEditingText (VStr []) (setEditingId VNull st))
      else
        next <- Array_map
                  (fun t =>
                     i <- Get t key_id ;;
                     Normal (if strict_eq_str i id
                             then VObj (obj_define (own_props t) key_text (VStr text))
                             else t))
                  (tasks st) ;;
        Normal (VUndef,
                setEditingText (VStr []) (setEditingId VNull (setTasks next st)))
  | _ => Throw TypeError
  end.

Inductive key : Type := Enter | Escape | OtherKey.

Definition onInputKeyDown (e : Env) (k : key) : handler := fun st =>
  match k with
  | Enter => r <- addTask e st ;; Normal (VUndef, snd r)
  | _ => Normal (VUndef, st)
  end.

Definition onEditKeyDown (k : key) (id : jsstring) : handler := fun st =>
  match k with
  | Enter => r <- saveEdit id st ;; Normal (VUndef, snd r)
  | Escape => Normal (VUndef, setEditingText (VStr []) (setEditingId VNull st))
  | OtherKey => Normal (VUndef, st)
  end.

(** [onChange] of the two text inputs. *)
Definition input_onChange (s : jsstring) : handler := fun st =>
  Normal (VUndef, setInput s st).

Definition editInput_onChange (s : jsstring) : handler := fun st =>
  Normal (VUndef, setEditingText (VStr s) st).

(** [onClick] of the button that empties the list. *)
Definition clearButton_onClick : handler := fun st =>
  Normal (VUndef, setTasks (VArr []) st).

(* ------------------------------------------------------------------ *)
(** *** Effects *)

(** The component, the storage area it talks to, the console, and the
    identity of [tasks] when the persisting effect last ran. *)
Record World : Type := {
  state : State;
  effect_deps : option nat;
  storage : localStorage.t;
  console : list (jsstring * exn)
}.

Definition set_state (st : State) (w : World) : World :=
  {| state := st; effect_deps := effect_deps w; storage := storage w;
     console := console w |}.

Definition set_deps (d : nat) (w : World) : World :=
  {| state := state w; effect_deps := Some d; storage := storage w;
     console := console w |}.

Definition set_storage (s : localStorage.t) (w : World) : World :=
  {| state := state w; effect_deps := effect_deps w; storage := s;
     console := console w |}.

(** Computations of the effects: they read and change the world and may
    throw. *)
Definition M (A : Type) : Type := World -> completion A * World.

Definition ret {A} (a : A) : M A := fun w => (Normal a, w).

Definition mbind {A B} (m : M A) (k : A -> M B) : M B := fun w =>
  match m w with
  | (Normal a, w') => k a w'
  | (Throw e, w') => (Throw e, w')
  end.

Notation "x <~ m ;; k" := (mbind m (fun x => k))
  (at level 61, m at next level, right associativity).
Notation "m ;;; k" := (mbind m (fun _ => k))
  (at level 61, right associativity).

(** [try { body } catch (e) { catch e }] *)
Definition try_catch {A} (body : M A) (catch : exn -> M A) : M A := fun w =>
  match body w with
  | (Normal a, w') => (Normal a, w')
  | (Throw e, w') => catch e w'
  end.

Definition getItem (k : jsstring) : M (option jsstring) := fun w =>
  (localStorage.getItem k (storage w), w).

Definition setItem (k v : jsstring) : M unit := fun w =>
  let (r, s) := localStorage.setItem k v (storage w) in (r, set_storage s w).

Definition JSON_parse (text : jsstring) : M value := fun w =>
  (JSON.parse text, w).

Definition console_error (msg : jsstring) (e : exn) : M unit := fun w =>
  (Normal tt,
   {| state := state w; effect_deps := effect_deps w; storage := storage w;
      console := console w ++ [(msg, e)] |}).

(** A state update asked for from an effect. *)
Definition update_tasks (v : value) : M unit := fun w =>
  (Normal tt, set_state (setTasks v (state w)) w).

(** Truthiness of what [getItem] returns: [null] and the empty string are
    falsy. *)
Definition truthy (raw : option jsstring) : bool :=
  match raw with
  | Some (_ :: _) => true
  | _ => false
  end.

Definition msg_load : jsstring := Eval cbv in lit "Failed to load tasks".
Definition msg_save : jsstring := Eval cbv in lit "Failed to save tasks".
Definition text_undefined : jsstring := Eval cbv in lit "undefined".

(** The effect that loads, run once after the first render. *)
Definition load_effect : M unit :=
  try_catch
    (raw <~ getItem STORAGE_KEY ;;
     match raw with
     | Some r => if truthy raw then v <~ JSON_parse r ;; update_tasks v
                 else ret tt
     | None => ret tt
     end)
    (fun e => console_error msg_load e).

(** The world in which a component is mounted: nothing rendered yet. *)
Definition initial_world (s : localStorage.t) : World :=
  {| state := initial_state; effect_deps := None; storage := s; console := [] |}.

(* ------------------------------------------------------------------ *)
(** *** Rendering *)

Definition key_toString : jsstring := Eval cbv in lit "toString".

(** Whether turning [v] into a string throws, as a template literal and
    [String(v)] do it. An object made by [JSON.parse] inherits
    [Object.prototype.toString] unless it has an own property of that name,
    which is then not callable, and its [valueOf] never yields a primitive:
    the conversion throws. An array joins the strings of its elements,
    [undefined] and [null] counting as empty. *)
Fixpoint ToString_throws (v : value) : bool :=
  match v with
  | VObj ps => match lookup key_toString ps with
               | Some _ => true
               | None => false
               end
  | VArr l =>
      (fix any (l : list value) : bool :=
         match l with
         | [] => false
         | x :: r => ToString_throws x || any r
         end) l
  | _ => false
  end.

Definition ToString (v : value) : completion unit :=
  if ToString_throws v then Throw TypeError else Normal tt.

(** What React accepts as a child: strings and numbers are shown, booleans,
    [null] and [undefined] show nothing, arrays show their elements; a plain
    object is refused. *)
Fixpoint valid_child (v : value) : bool :=
  match v with
  | VObj _ => false
  | VArr l =>
      (fix all (l : list value) : bool :=
         match l with
         | [] => true
         | x :: r => valid_child x && all r
         end) l
  | _ => true
  end.

(** The same contents: the same primitive, or arrays and objects with the
    same contents in the same order. *)
Fixpoint value_eqb (a b : value) : bool :=
  match a, b with
  | VUndef, VUndef => true
  | VNull, VNull => true
  | VBool x, VBool y => Bool.eqb x y
  | VNum x, VNum y => str_eqb x y
  | VStr x, VStr y => str_eqb x y
  | VArr l, VArr m =>
      (fix all2 (l m : list value) : bool :=
         match l, m with
         | [], [] => true
         | x :: l', y :: m' => value_eqb x y && all2 l' m'
         | _, _ => false
         end) l m
  | VObj p, VObj q =>
      (fix all2 (p q : list (jsstring * value)) : bool :=
         match p, q with
         | [], [] => true
         | (k, x) :: p', (k', y) :: q' =>
             str_eqb k k' && value_eqb x y && all2 p' q'
         | _, _ => false
         end) p q
  | _, _ => false
  end.

(** [a === b]. On [undefined], [null], booleans and strings this is the
    comparison of JavaScript. A number is kept as the literal it was read
    from and an object without its identity, so that two numbers are taken
    for the same when their literals are, and two arrays or objects when
    their contents are: for a pointer that [startEdit] took from a task of
    the list, this is the answer of [===] on that task; on another task it
    is not when that task's id is the same number written otherwise, or
    another object with the same contents. *)
Definition strict_eq (a b : value) : bool := value_eqb a b.

Fixpoint forM (f : value -> completion unit) (l : list value) : completion unit :=
  match l with
  | [] => Normal tt
  | x :: r => _ <- f x ;; forM f r
  end.

(** The body of the callback of [tasks.map], which builds the element of
    one task: it reads [task.id] and [task.text], puts the text into the
    [aria-label]s (in either branch), and React turns a key that is not
    [undefined] into a string. *)
Definition task_element (task : value) : completion unit :=
  i <- Get task key_id ;;
  x <- Get task key_text ;;
  _ <- ToString x ;;
  match i with
  | VUndef => Normal tt
  | _ => ToString i
  end.

(** Whether [task] is shown by the edit input ([editingId === task.id]). *)
Definition shown_as_editor (st : State) (task : value) : bool :=
  match Get task key_id with
  | Normal i => strict_eq (editingId st) i
  | Throw _ => false
  end.

(** The child [{task.text}] of a task shown as a row. *)
Definition row_child (st : State) (task : value) : completion unit :=
  if shown_as_editor st task then Normal tt
  else match Get task key_text with
       | Normal x => if valid_child x then Normal tt else Throw Error
       | Throw e => Throw e
       end.

(** The [value] of the edit inputs: React turns it into a string unless it
    is [null] or [undefined]. *)
Definition editor_value (st : State) (l : list value) : completion unit :=
  if existsb (shown_as_editor st) l
  then match editingText st with
       | VUndef | VNull => Normal tt
       | v => ToString v
       end
  else Normal tt.

(** Rendering the component in state [st], as far as it can throw:
    [tasks.length] and [tasks.map] need a list that is an array (of the
    values the state can hold only arrays have a callable [map]); the
    callback runs on every task; React then takes the children and sets the
    value of the edit inputs. *)
Definition TodoAppExecutable (st : State) : completion unit :=
  match tasks st with
  | VArr l =>
      _ <- forM task_element l ;;
      _ <- forM (row_child st) l ;;
      editor_value st l
  | _ => Throw TypeError
  end.

Section Persist.

Variable number_to_string : jsstring -> jsstring.

(** The effect that persists; [tasks] is the value its render saw.
    [setItem] turns its argument into a string, [undefined] included. *)
Definition persist_effect (tasks : value) : M unit :=
  try_catch
    (setItem STORAGE_KEY
       match JSON.stringify number_to_string tasks with
       | Some s => s
       | None => text_undefined
       end)
    (fun e => console_error msg_save e).

Definition deps_changed (w : World) : bool :=
  match effect_deps w with
  | Some d => negb (Nat.eqb d (tasks_ref (state w)))
  | None => true
  end.

(** The effects of a render that has completed: the persisting effect runs
    when the identity of [tasks] is not the one it last ran with. *)
Definition commit_effects : M unit := fun w =>
  if deps_changed w
  then (persist_effect (tasks (state w)) ;;;
        (fun w' => (Normal tt, set_deps (tasks_ref (state w)) w'))) w
  else (Normal tt, w).

(** A render: the component is evaluated in the current state; if that
    throws, React unmounts the component and no effect runs; otherwise the
    effects run. *)
Definition render : M unit := fun w =>
  match TodoAppExecutable (state w) with
  | Normal _ => commit_effects w
  | Throw e => (Throw e, w)
  end.

(** Mounting: the first render shows the initial state, which cannot
    throw; its two effects run in the order they are declared, both seeing
    that render's [tasks]; the update the loading effect asked for is then
    rendered, and that render can throw. *)
Definition mount (s : localStorage.t) : completion unit * World :=
  (load_effect ;;;
   persist_effect (tasks initial_state) ;;;
   (fun w => (Normal tt, set_deps (tasks_ref initial_state) w)) ;;;
   render) (initial_world s).

(** An event on a mounted component whose next render completes: the
    handler runs, then the effects of that render. *)
Definition dispatch (h : handler) : M value := fun w =>
  match h (state w) with
  | Normal (r, st) => (commit_effects ;;; ret r) (set_state st w)
  | Throw e => (Throw e, w)
  end.

(** An event, the render included: when the handler returns the component
    renders again, and a render that throws unmounts it. *)
Definition on_event (h : handler) : M value := fun w =>
  match h (state w) with
  | Normal (r, st) => (render ;;; ret r) (set_state st w)
  | Throw e => (Throw e, w)
  end.

End Persist.

(* ================================================================== *)
(** ** Vocabulary of the statements *)

(** The [id] and [text] of a record, as [t.id] and [t.text] read them. *)
Definition record_field (k : jsstring) (ps : list (jsstring * value)) : value :=
  match lookup k ps with
  | Some x => x
  | None => VUndef
  end.

Definition has_id (id : jsstring) (ps : list (jsstring * value)) : bool :=
  strict_eq_str (record_field key_id ps) id.

(** What the callback of [saveEdit] does to a record. *)
Definition set_text (id text : jsstring) (o : list (jsstring * value))
  : list (jsstring * value) :=
  if has_id id o then obj_define o key_text (VStr text) else o.

(** The editing pointer: [Idle] is [editingId === null], [Editing id] is
    [editingId === id]. *)
Definition Idle (st : State) : Prop := editingId st = VNull.
Definition Editing (id : jsstring) (st : State) : Prop := editingId st = VStr id.

(** One list is the other with some elements left out, order kept. *)
Inductive subseq {A : Type} : list A -> list A -> Prop :=
| subseq_nil : subseq [] []
| subseq_keep x l l' : subseq l l' -> subseq (x :: l) (x :: l')
| subseq_drop x l l' : subseq l l' -> subseq l (x :: l').

(** *** The operations as the specification words them *)

(** [add(s)]: nothing happens and nothing is returned when [s] trims to
    the empty string; otherwise one task with text [trim s] is appended and
    returned. *)
Definition add_as_specified (e : Env) (st : State) : Prop :=
  forall l, tasks st = VArr l ->
    exists ret st',
      addTask e st = Normal (ret, st') /\
      if str_eqb (trim (input st)) []
      then tasks st' = tasks st /\ ret = VUndef
      else exists t, tasks st' = VArr (l ++ [t]) /\
                     Get t key_text = Normal (VStr (trim (input st))) /\
                     ret = t.

(** [delete(id)] returns [true] exactly when a task was removed. *)
Definition delete_as_specified (id : jsstring) (st : State) : Prop :=
  forall os, tasks st = VArr (List.map VObj os) ->
    exists ret st',
      deleteTask id st = Normal (ret, st') /\
      ret = VBool (existsb (has_id id) os).

(** [commitEdit(id, rawText)] returns [true] exactly when a task with that
    id existed. *)
Definition commitEdit_as_specified (id : jsstring) (st : State) : Prop :=
  forall os, tasks st = VArr (List.map VObj os) ->
    exists ret st',
      saveEdit id st = Normal (ret, st') /\
      ret = VBool (existsb (has_id id) os).

(** [clear()] leaves an empty list and an idle editing pointer. *)
Definition clear_as_specified (st : State) : Prop :=
  exists ret st',
    clearButton_onClick st = Normal (ret, st') /\
    tasks st' = VArr [] /\ Idle st'.


(** Two calls of [add] create tasks with different ids. *)
Definition ids_differ_as_specified (e1 e2 : Env) : Prop :=
  makeId e1 <> makeId e2.

(** *** Sample data *)

Definition str_a : jsstring := Eval cbv in lit "a".
Definition str_x : jsstring := Eval cbv in lit "x".
Definition str_y : jsstring := Eval cbv in lit "y".

Definition str_random : jsstring := Eval cbv in lit "0.abcdefghijk".
Definition str_iso : jsstring := Eval cbv in lit "2023-11-14T22:13:20.000Z".

Definition env0 : Env :=
  {| Date_now := 1700000000000;
     Math_random_toString36 := str_random;
     Date_toISOString := str_iso |}.

Definition task_a : Task := {| id := str_a; text := str_x; created_at := [] |}.

(** One task [a] with text [x]; the input field holds [y]. *)
Definition st_one : State :=
  {| tasks := VArr [task_value task_a]; tasks_ref := 1; input := str_y;
     editingId := VNull; editingText := VStr [] |}.

(** The same, while task [a] is being edited, the edit field holding [x]. *)
Definition st_editing : State :=
  {| tasks := VArr [task_value task_a]; tasks_ref := 1; input := str_y;
     editingId := VStr str_a; editingText := VStr str_x |}.


(** A second call of [add] in the same millisecond whose random draw
    differs from the first only after the five digits that [makeId] keeps. *)
Definition str_random' : jsstring := Eval cbv in lit "0.abcdezzzzzz".

Definition env1 : Env :=
  {| Date_now := 1700000000000;
     Math_random_toString36 := str_random';
     Date_toISOString := str_iso |}.

(** The ids of the elements of a task list. *)
Definition ids_of (v : value) : list value :=
  match v with
  | VArr l => List.map (fun t => match Get t key_id with
                                 | Normal i => i
                                 | Throw _ => VUndef
                                 end) l
  | _ => []
  end.

(** Two calls of [add] in one session, starting from the empty list, leave
    a list without repeated ids. *)
Definition session_ids_unique_as_specified (e1 e2 : Env) (s1 s2 : jsstring) : Prop :=
  forall r1 st1 r2 st2,
    addTask e1 (setInput s1 initial_state) = Normal (r1, st1) ->
    addTask e2 (setInput s2 st1) = Normal (r2, st2) ->
    trim s1 <> [] -> trim s2 <> [] ->
    makeId e1 <> makeId e2 /\ NoDup (ids_of (tasks st2)).

(** *** Reading base 36 back *)

Definition undigit36 (c : code_unit) : N :=
  (if c <? 58 then c - 48 else c - 87)%N.

Definition value36 (s : jsstring) : N :=
  fold_left (fun a c => (36 * a + undigit36 c)%N) s 0%N.

(** *** Sample storage *)

(** A printer of numbers for the samples, which hold none. *)
Definition number_as_read (lexeme : jsstring) : jsstring := lexeme.

Definition storage_with (raw : jsstring) : localStorage.t :=
  {| localStorage.items := [(STORAGE_KEY, raw)];
     localStorage.readable := true;
     localStorage.writable := true;
     localStorage.setItem_calls := [] |}.

Definition empty_storage : localStorage.t :=
  {| localStorage.items := [];
     localStorage.readable := true;
     localStorage.writable := true;
     localStorage.setItem_calls := [] |}.

(** A stored text cut in the middle of a record. *)
Definition raw_truncated : jsstring :=
  Eval cbv in
    List.map (fun c => if (c =? 39)%N then 34%N else c) (lit "[{'id':'a','text'").

(** A stored list that breaks the rules of the data model: two records
    share the id [a], the first has a blank text, the second has no text and
    no creation time. *)
Definition raw_invalid : jsstring :=
  Eval cbv in
    List.map (fun c => if (c =? 39)%N then 34%N else c)
             (lit "[{'id':'a','text':'  ','created_at':'t'},{'id':'a'}]").

Definition str_t : jsstring := Eval cbv in lit "t".

Definition records_invalid : list (list (jsstring * value)) :=
  [[(key_id, VStr str_a); (key_text, VStr [32; 32]%N);
    (key_created_at, VStr str_t)];
   [(key_id, VStr str_a)]].

(** *** The text of a task list *)

Definition member_text (k v : jsstring) : jsstring :=
  JSON.QuoteJSONString k ++ 58%N :: JSON.QuoteJSONString v.

(** A task as [JSON.stringify] writes it. *)
Definition task_text (t : Task) : jsstring :=
  123%N :: JSON.join_comma [member_text key_id (id t);
                            member_text key_text (text t);
                            member_text key_created_at (created_at t)]
        ++ [125%N].

(** A task list as [JSON.stringify] writes it. *)
Definition tasks_text (ts : list Task) : jsstring :=
  91%N :: JSON.join_comma (List.map task_text ts) ++ [93%N].

(** *** Persistence after an edit *)

(** A mounted component in state [st_editing], its effects up to date. *)
Definition world_editing : World :=
  {| state := st_editing; effect_deps := Some 1;
     storage := storage_with (tasks_text [task_a]); console := [] |}.

(** [commitEdit] writes to the store only if the text of the task has
    changed. *)
Definition commit_writes_only_on_change_as_specified
    (n2s : jsstring -> jsstring) (id : jsstring) (w : World) : Prop :=
  forall r w',
    dispatch n2s (saveEdit id) w = (Normal r, w') ->
    localStorage.setItem_calls (storage w')
      <> localStorage.setItem_calls (storage w) ->
    tasks (state w') <> tasks (state w).

(** *** Sessions *)

(** What the user can do to the mounted component. *)
Inductive event : Type :=
| InputChange (s : jsstring)
| AddClick (e : Env)
| InputKeyDown (e : Env) (k : key)
| StartEdit (task : value)
| EditChange (s : jsstring)
| EditKeyDown (k : key) (id : jsstring)
| EditBlur (id : jsstring)
| DeleteClick (id : jsstring)
| ClearClick.

Definition handle (ev : event) : handler :=
  match ev with
  | InputChange s => input_onChange s
  | AddClick e => addTask e
  | InputKeyDown e k => onInputKeyDown e k
  | StartEdit task => startEdit task
  | EditChange s => editInput_onChange s
  | EditKeyDown k id => onEditKeyDown k id
  | EditBlur id => saveEdit id
  | DeleteClick id => deleteTask id
  | ClearClick => clearButton_onClick
  end.

(** The states a session reaches from [st0] by events whose handlers
    return. *)
Inductive reachable (st0 : State) : State -> Prop :=
| reach_start : reachable st0 st0
| reach_event st ev r st' :
    reachable st0 st -> handle ev st = Normal (r, st') -> reachable st0 st'.

(** The task list is a list of records, each with a text that is a string
    and is not blank. *)
Definition texts_not_blank (st : State) : Prop :=
  exists os,
    tasks st = VArr (List.map VObj os) /\
    Forall (fun o => exists s, record_field key_text o = VStr s /\ trim s <> [])
           os.

(** A string that does not start with white space. *)
Definition starts_clean (s : jsstring) : Prop :=
  match s with
  | [] => True
  | c :: _ => is_white_space c = false
  end.

(** A stored text that is JSON but not a list. *)
Definition raw_null : jsstring := Eval cbv in lit "null".

(* ================================================================== *)
(** ** Sessions through the interface *)

(** The own properties of the record [addTask] builds. *)
Definition task_props (t : Task) : list (jsstring * value) :=
  [(key_id, VStr (id t)); (key_text, VStr (text t));
   (key_created_at, VStr (created_at t))].

(** A task with another text. *)
Definition with_text (x : jsstring) (t : Task) : Task :=
  {| id := id t; text := x; created_at := created_at t |}.

(** The rendered list offers [startEdit] on the tasks it shows; the other
    handlers take strings. *)
Definition offered (st : State) (ev : event) : Prop :=
  match ev with
  | StartEdit task => exists l, tasks st = VArr l /\ In task l
  | _ => True
  end.

(** The states reached from [st0] by offered events whose handlers
    return. *)
Inductive ui_reachable (st0 : State) : State -> Prop :=
| ui_start : ui_reachable st0 st0
| ui_event st ev r st' :
    ui_reachable st0 st -> offered st ev ->
    handle ev st = Normal (r, st') -> ui_reachable st0 st'.

(** A text as [addTask] and [saveEdit] store it: trimmed and not empty. *)
Definition trimmed_text (t : Task) : Prop :=
  trim (text t) = text t /\ text t <> [].

(** The list holds records as [addTask] builds them, with trimmed texts;
    the edit buffer is a string; the editing pointer is [null] or a
    string. *)
Definition well_formed (st : State) : Prop :=
  (exists ts, tasks st = VArr (List.map task_value ts) /\ Forall trimmed_text ts) /\
  (exists s, editingText st = VStr s) /\
  (editingId st = VNull \/ exists i, editingId st = VStr i).

(** The text the persisting effect hands to [setItem] for a list. *)
Definition store_text (n2s : jsstring -> jsstring) (v : value) : jsstring :=
  match JSON.stringify n2s v with
  | Some s => s
  | None => text_undefined
  end.

(** The store holds the text of the current list, and the persisting effect
    has run for it. *)
Definition mirrored (n2s : jsstring -> jsstring) (w : World) : Prop :=
  effect_deps w = Some (tasks_ref (state w)) /\
  localStorage.find STORAGE_KEY (localStorage.items (storage w))
  = Some (store_text n2s (tasks (state w))).

(** The worlds a mounted component goes through, event after event. *)
Inductive session (n2s : jsstring -> jsstring) (w0 : World) : World -> Prop :=
| session_start : session n2s w0 w0
| session_event w ev r w' :
    session n2s w0 w -> offered (state w) ev ->
    dispatch n2s (handle ev) w = (Normal r, w') -> session n2s w0 w'.


(** The years 1972 to 2059, in milliseconds: the clock readings with eight
    digits in base 36. *)
Definition eight_digit_clock (z : Z) : Prop :=
  (78364164096 <= z < 2821109907456)%Z.

(** *** Sample data of the sessions *)

Definition task_y : Task :=
  {| id := makeId env0; text := str_y; created_at := str_iso |}.

(** [st_one] after the add button. *)
Definition st_two : State :=
  {| tasks := VArr [task_value task_a; task_value task_y]; tasks_ref := 2;
     input := []; editingId := VNull; editingText := VStr [] |}.

(** A mounted component showing task [a], store and effects up to date. *)
Definition world_one : World :=
  {| state := st_one; effect_deps := Some 1;
     storage := storage_with (tasks_text [task_a]); console := [] |}.


Definition env2 : Env :=
  {| Date_now := 1700000000001;
     Math_random_toString36 := str_random;
     Date_toISOString := str_iso |}.

(** A state whose list is not an array, as a load can leave it. *)
Definition st_null : State :=
  {| tasks := VNull; tasks_ref := 1; input := [];
     editingId := VNull; editingText := VStr [] |}.

(** Task [a] shown, white space typed in the input field. *)
Definition world_blank : World :=
  {| state := setInput [32%N; 9%N] st_one; effect_deps := Some 1;
     storage := storage_with (tasks_text [task_a]); console := [] |}.

(** A stored list of one record whose text is an object. *)
Definition raw_object_text : jsstring :=
  Eval cbv in
    List.map (fun c => if (c =? 39)%N then 34%N else c)
             (lit "[{'id':'a','text':{}}]").

(** *** Loading as the specification words it *)

(** Whatever parses becomes the task list of the started component. *)
Definition parsed_value_is_installed_as_specified
    (n2s : jsstring -> jsstring) : Prop :=
  forall s raw v,
    localStorage.readable s = true ->
    localStorage.find STORAGE_KEY (localStorage.items s) = Some raw ->
    raw <> [] ->
    JSON.parse raw = Normal v ->
    exists w, mount n2s s = (Normal tt, w) /\ tasks (state w) = v.

(** The rules of the data model (ids all different, no blank text) hold in
    every state a session reaches from the empty list. *)
Definition session_keeps_the_rules_as_specified : Prop :=
  forall st,
    reachable initial_state st ->
    exists os,
      tasks st = VArr (List.map VObj os) /\
      NoDup (List.map (record_field key_id) os) /\
      Forall (fun o => exists s, record_field key_text o = VStr s /\ trim s <> [])
             os.
(* ================================================================== *)
(** ** Strings and records: basic facts *)

Lemma str_eqb_eq (a b : jsstring) : str_eqb a b = true <-> a = b.
Proof.
  revert b; induction a as [|x a IH]; intros [|y b]; simpl;
    try (split; [discriminate | congruence]).
  - split; reflexivity.
  - rewrite andb_true_iff, N.eqb_eq, IH. split.
    + intros [-> ->]; reflexivity.
    + intros H; injection H; auto.
Qed.

Lemma str_eqb_refl (a : jsstring) : str_eqb a a = true.
Proof. apply str_eqb_eq; reflexivity. Qed.

Lemma str_eqb_neq (a b : jsstring) : str_eqb a b = false <-> a <> b.
Proof.
  rewrite <- str_eqb_eq. destruct (str_eqb a b); split; congruence.
Qed.

Lemma str_eqb_nil (a : jsstring) : str_eqb a [] = true <-> a = [].
Proof. apply str_eqb_eq. Qed.

Lemma lookup_replace_value_same k v ps x :
  lookup k ps = Some x -> lookup k (replace_value k v ps) = Some v.
Proof.
  induction ps as [|[k' v'] r IH]; simpl; [discriminate|].
  destruct (str_eqb k k') eqn:E; simpl; rewrite E; auto.
Qed.

Lemma lookup_replace_value_other k k' v ps :
  k' <> k -> lookup k' (replace_value k v ps) = lookup k' ps.
Proof.
  intros Hne. induction ps as [|[k0 v0] r IH]; simpl; [reflexivity|].
  destruct (str_eqb k k0) eqn:E; simpl.
  - apply str_eqb_eq in E; subst k0.
    apply str_eqb_neq in Hne. rewrite Hne; reflexivity.
  - rewrite IH; reflexivity.
Qed.

Lemma lookup_insert_index_same i k v ps :
  lookup k ps = None -> lookup k (insert_index i k v ps) = Some v.
Proof.
  induction ps as [|[k' v'] r IH]; simpl.
  - rewrite str_eqb_refl; reflexivity.
  - destruct (str_eqb k k') eqn:E; [discriminate|]. intros H.
    destruct (array_index k') as [j|]; [destruct (j <? i)%N|]; simpl;
      rewrite ?E, ?str_eqb_refl; auto.
Qed.

Lemma lookup_insert_index_other i k k' v ps :
  k' <> k -> lookup k' (insert_index i k v ps) = lookup k' ps.
Proof.
  intros Hne. apply str_eqb_neq in Hne.
  induction ps as [|[k0 v0] r IH]; simpl.
  - rewrite Hne; reflexivity.
  - destruct (array_index k0) as [j|]; [destruct (j <? i)%N|]; simpl;
      rewrite ?Hne, ?IH; reflexivity.
Qed.

Lemma lookup_app_single_same k v ps :
  lookup k ps = None -> lookup k (ps ++ [(k, v)]) = Some v.
Proof.
  induction ps as [|[k' v'] r IH]; simpl.
  - rewrite str_eqb_refl; reflexivity.
  - destruct (str_eqb k k'); [discriminate | auto].
Qed.

Lemma lookup_app_single_other k k' v ps :
  k' <> k -> lookup k' (ps ++ [(k, v)]) = lookup k' ps.
Proof.
  intros Hne. apply str_eqb_neq in Hne.
  induction ps as [|[k0 v0] r IH]; simpl.
  - rewrite Hne; reflexivity.
  - rewrite IH; reflexivity.
Qed.

(** Defining a property sets it. *)
Lemma lookup_obj_define_same k v ps :
  lookup k (obj_define ps k v) = Some v.
Proof.
  unfold obj_define. destruct (lookup k ps) eqn:E.
  - eapply lookup_replace_value_same; eauto.
  - destruct (array_index k).
    + apply lookup_insert_index_same; assumption.
    + apply lookup_app_single_same; assumption.
Qed.

(** Defining a property leaves every other property as it was. *)
Lemma lookup_obj_define_other k k' v ps :
  k' <> k -> lookup k' (obj_define ps k v) = lookup k' ps.
Proof.
  intros Hne. unfold obj_define. destruct (lookup k ps).
  - apply lookup_replace_value_other; assumption.
  - destruct (array_index k).
    + apply lookup_insert_index_other; assumption.
    + apply lookup_app_single_other; assumption.
Qed.

Lemma key_id_neq_text : key_id <> key_text.
Proof. discriminate. Qed.

Lemma has_id_obj_define_text id v ps :
  has_id id (obj_define ps key_text v) = has_id id ps.
Proof.
  unfold has_id, record_field.
  rewrite lookup_obj_define_other by apply key_id_neq_text. reflexivity.
Qed.

Lemma Get_record k ps : Get (VObj ps) k = Normal (record_field k ps).
Proof. reflexivity. Qed.

(** On a list of records the two callbacks never throw: [filter] and [map]
    are the pure ones. *)
Lemma filterM_records id os :
  filterM (fun t => i <- Get t key_id ;; Normal (negb (strict_eq_str i id)))
          (List.map VObj os)
  = Normal (List.map VObj (filter (fun o => negb (has_id id o)) os)).
Proof.
  induction os as [|o os IH]; simpl; [reflexivity|].
  rewrite IH; simpl. fold (record_field key_id o). fold (has_id id o).
  destruct (has_id id o); reflexivity.
Qed.

Lemma mapM_records id text os :
  mapM (fun t => i <- Get t key_id ;;
                 Normal (if strict_eq_str i id
                         then VObj (obj_define (own_props t) key_text (VStr text))
                         else t))
       (List.map VObj os)
  = Normal (List.map VObj (List.map (set_text id text) os)).
Proof.
  induction os as [|o os IH]; simpl; [reflexivity|].
  rewrite IH; simpl. unfold set_text.
  fold (record_field key_id o). fold (has_id id o).
  destruct (has_id id o); reflexivity.
Qed.

Lemma subseq_filter {A} (f : A -> bool) (l : list A) : subseq (filter f l) l.
Proof.
  induction l as [|x l IH]; simpl; [constructor|].
  destruct (f x); constructor; assumption.
Qed.

Lemma filter_idem {A} (f : A -> bool) (l : list A) :
  filter f (filter f l) = filter f l.
Proof.
  induction l as [|x l IH]; simpl; [reflexivity|].
  destruct (f x) eqn:E; simpl; rewrite ?E, IH; reflexivity.
Qed.

(** The handlers on a list of records, as equations. *)
Lemma deleteTask_records (id : jsstring) (st : State)
    (os : list (list (jsstring * value))) :
  tasks st = VArr (List.map VObj os) ->
  deleteTask id st
  = Normal (VUndef,
            setTasks (VArr (List.map VObj
                              (filter (fun o => negb (has_id id o)) os))) st).
Proof.
  intros Hl. unfold deleteTask, Array_filter.
  rewrite Hl, filterM_records. reflexivity.
Qed.

Lemma saveEdit_records_blank (id rawText : jsstring) (st : State) :
  editingText st = VStr rawText ->
  trim rawText = [] ->
  saveEdit id st
  = Normal (VUndef, setEditingText (VStr []) (setEditingId VNull st)).
Proof.
  intros Ht He. unfold saveEdit. rewrite Ht, He. reflexivity.
Qed.

Lemma saveEdit_records (id rawText : jsstring) (st : State)
    (os : list (list (jsstring * value))) :
  tasks st = VArr (List.map VObj os) ->
  editingText st = VStr rawText ->
  trim rawText <> [] ->
  saveEdit id st
  = Normal (VUndef,
            setEditingText (VStr [])
              (setEditingId VNull
                 (setTasks (VArr (List.map VObj
                                    (List.map (set_text id (trim rawText)) os)))
                           st))).
Proof.
  intros Hl Ht Hne. unfold saveEdit. rewrite Ht.
  destruct (str_eqb (trim rawText) []) eqn:E.
  - apply str_eqb_nil in E. contradiction.
  - unfold Array_map. rewrite Hl, mapM_records. reflexivity.
Qed.

(* ================================================================== *)
(** ** The handlers *)

(** C1, amended. [add(s)] trims [s]. When the result is empty the state is
    left as it was and the call returns [undefined]. Otherwise exactly one
    task is appended at the end of the list, its text is [trim s], the
    length grows by one, and the call again returns [undefined]: the created
    task is the last element of the new list, it is not returned. *)
Theorem addTask_appends (e : Env) (s : jsstring) (st : State) (l : list value) :
  input st = s ->
  tasks st = VArr l ->
  (trim s = [] -> addTask e st = Normal (VUndef, st)) /\
  (trim s <> [] ->
   let t := task_value {| id := makeId e; text := trim s;
                          created_at := Date_toISOString e |} in
   addTask e st = Normal (VUndef, setInput [] (setTasks (VArr (l ++ [t])) st)) /\
   Get t key_text = Normal (VStr (trim s)) /\
   length (l ++ [t]) = S (length l)).
Proof.
  intros Hs Hl. unfold addTask. rewrite Hs, Hl. split.
  - intros ->. reflexivity.
  - intros Hne. destruct (str_eqb (trim s) []) eqn:E.
    + apply str_eqb_nil in E. contradiction.
    + simpl. repeat split. rewrite length_app. simpl. lia.
Qed.

Lemma addTask_appends_witness :
  addTask env0 st_one
  = Normal (VUndef,
            setInput []
              (setTasks (VArr [task_value task_a;
                               task_value {| id := makeId env0; text := str_y;
                                             created_at := str_iso |}])
                        st_one)).
Proof.
  destruct (@addTask_appends env0 str_y st_one [task_value task_a]
              eq_refl eq_refl) as [_ H].
  destruct H as [H _]; [discriminate | exact H].
Defined.

(** C1 as worded fails: on a non-blank input the call returns [undefined],
    not the task it has appended. *)
Lemma add_as_specified_fails : ~ add_as_specified env0 st_one.
Proof.
  intros H. destruct (H [task_value task_a] eq_refl) as (ret & st' & Hadd & Hspec).
  vm_compute in Hadd. injection Hadd as <- <-.
  vm_compute in Hspec. destruct Hspec as (t & Ht & _ & Hret).
  subst t. discriminate.
Qed.

(** C2, amended. On a list of records, [delete(id)] keeps exactly the tasks
    whose id is not [id], in their order, and returns [undefined] whether or
    not a task was removed; a second [delete(id)] returns [undefined] too
    and leaves the list, hence its length, as the first call left it. *)
Theorem deleteTask_removes (id : jsstring) (st : State)
    (os : list (list (jsstring * value))) :
  tasks st = VArr (List.map VObj os) ->
  let os' := filter (fun o => negb (has_id id o)) os in
  let st' := setTasks (VArr (List.map VObj os')) st in
  deleteTask id st = Normal (VUndef, st') /\
  subseq os' os /\
  (forall o, In o os' <-> In o os /\ has_id id o = false) /\
  exists st'',
    deleteTask id st' = Normal (VUndef, st'') /\
    tasks st'' = tasks st' /\
    length os' = length (filter (fun o => negb (has_id id o)) os').
Proof.
  intros Hl os' st'. repeat split.
  - apply deleteTask_records; assumption.
  - apply subseq_filter.
  - apply filter_In in H. tauto.
  - apply filter_In in H. destruct H as [_ H].
    destruct (has_id id o); [discriminate | reflexivity].
  - intros [Hin Hid]. apply filter_In. rewrite Hid. auto.
  - exists (setTasks (VArr (List.map VObj os')) st'). repeat split.
    + rewrite (deleteTask_records id st' os') by reflexivity.
      unfold os'. rewrite filter_idem. reflexivity.
    + unfold os'. rewrite filter_idem. reflexivity.
Qed.

Lemma deleteTask_removes_witness :
  deleteTask str_a st_one = Normal (VUndef, setTasks (VArr []) st_one).
Proof.
  exact (proj1 (@deleteTask_removes str_a st_one
                  [[(key_id, VStr str_a); (key_text, VStr str_x);
                    (key_created_at, VStr [])]] eq_refl)).
Defined.

(** C2 as worded fails: the task [a] is removed, yet the call does not
    return [true]. *)
Lemma delete_as_specified_fails : ~ delete_as_specified str_a st_one.
Proof.
  intros H.
  destruct (H [[(key_id, VStr str_a); (key_text, VStr str_x);
                (key_created_at, VStr [])]] eq_refl)
    as (ret & st' & Hdel & Hret).
  vm_compute in Hdel, Hret. subst ret. discriminate.
Qed.

(** C3, amended. [commitEdit(id, rawText)] trims the text of the edit
    field. When the result is empty no task is touched and the editing
    pointer becomes idle. Otherwise every task with that id takes the
    trimmed text and the pointer becomes idle. In both cases the call
    returns [undefined], whether or not a task with that id exists. *)
Theorem saveEdit_commits (id rawText : jsstring) (st : State)
    (os : list (list (jsstring * value))) :
  tasks st = VArr (List.map VObj os) ->
  editingText st = VStr rawText ->
  exists st',
    saveEdit id st = Normal (VUndef, st') /\
    Idle st' /\
    (trim rawText = [] ->
       tasks st' = tasks st /\ tasks_ref st' = tasks_ref st) /\
    (trim rawText <> [] ->
       let os' := List.map (set_text id (trim rawText)) os in
       tasks st' = VArr (List.map VObj os') /\
       forall o, In o os' -> has_id id o = true ->
                 record_field key_text o = VStr (trim rawText)).
Proof.
  intros Hl Ht.
  destruct (str_eqb (trim rawText) []) eqn:E.
  - apply str_eqb_nil in E.
    rewrite (saveEdit_records_blank id rawText st Ht E).
    eexists. split; [reflexivity|]. split; [reflexivity|]. split.
    + intros _. split; reflexivity.
    + intros Hne. contradiction.
  - apply str_eqb_neq in E.
    rewrite (saveEdit_records id rawText st os Hl Ht E).
    eexists. split; [reflexivity|]. split; [reflexivity|]. split.
    + intros Hemp. contradiction.
    + intros _. split; [reflexivity|].
      intros o Hin Hid. apply in_map_iff in Hin. destruct Hin as (o0 & <- & _).
      unfold set_text in *. destruct (has_id id o0) eqn:E0.
      * unfold record_field. rewrite lookup_obj_define_same. reflexivity.
      * congruence.
Qed.

Lemma saveEdit_commits_witness :
  exists st', saveEdit str_a st_editing = Normal (VUndef, st') /\ Idle st'.
Proof.
  destruct (@saveEdit_commits str_a str_x st_editing
              [[(key_id, VStr str_a); (key_text, VStr str_x);
                (key_created_at, VStr [])]] eq_refl eq_refl)
    as (st' & H & Hidle & _).
  exists st'; split; assumption.
Defined.

(** C3 as worded fails: a task with id [a] exists, yet the call does not
    return [true]. *)
Lemma commitEdit_as_specified_fails : ~ commitEdit_as_specified str_a st_editing.
Proof.
  intros H.
  destruct (H [[(key_id, VStr str_a); (key_text, VStr str_x);
                (key_created_at, VStr [])]] eq_refl)
    as (ret & st' & Hsave & Hret).
  vm_compute in Hsave, Hret. subst ret. discriminate.
Qed.

(** C4, amended. Whatever the state, [clear()] leaves an empty task list;
    the editing pointer stays what it was. *)
Theorem clear_empties (st : State) :
  exists st',
    clearButton_onClick st = Normal (VUndef, st') /\
    tasks st' = VArr [] /\
    editingId st' = editingId st /\
    editingText st' = editingText st.
Proof. eexists; repeat split. Qed.

(** C4 as worded fails: cleared while task [a] is being edited, the state
    keeps its editing pointer. *)
Lemma clear_as_specified_fails : ~ clear_as_specified st_editing.
Proof.
  intros (ret & st' & Hclear & _ & Hidle).
  vm_compute in Hclear. injection Hclear as _ <-.
  unfold Idle in Hidle. simpl in Hidle. discriminate.
Qed.




(* ================================================================== *)
(** ** Identifiers *)

Lemma undigit36_digit36 (d : N) : (d < 36)%N -> undigit36 (digit36 d) = d.
Proof.
  intros H. unfold undigit36, digit36.
  destruct (d <? 10)%N eqn:E.
  - apply N.ltb_lt in E.
    replace (48 + d <? 58)%N with true by (symmetry; apply N.ltb_lt; lia). lia.
  - apply N.ltb_ge in E.
    replace (87 + d <? 58)%N with false by (symmetry; apply N.ltb_ge; lia). lia.
Qed.

Lemma digit36_not_minus (d : N) : digit36 d <> 45%N.
Proof. unfold digit36. destruct (d <? 10)%N; lia. Qed.

Lemma digits36_acc (fuel : nat) : forall n acc,
  digits36 fuel n acc = digits36 fuel n [] ++ acc.
Proof.
  induction fuel as [|fuel IH]; intros n acc; simpl; [reflexivity|].
  destruct (n <? 36)%N; [reflexivity|].
  rewrite IH. rewrite (IH _ [_]). rewrite <- app_assoc. reflexivity.
Qed.

Lemma value36_snoc (s : jsstring) (c : code_unit) :
  value36 (s ++ [c]) = (36 * value36 s + undigit36 c)%N.
Proof. unfold value36. rewrite fold_left_app. reflexivity. Qed.

Lemma value36_digits36 (fuel : nat) : forall n,
  (n < 2 ^ N.of_nat fuel)%N -> value36 (digits36 fuel n []) = n.
Proof.
  induction fuel as [|fuel IH]; intros n Hn.
  - simpl in *. change (2 ^ 0)%N with 1%N in Hn.
    assert (n = 0%N) by lia. subst; reflexivity.
  - cbn [digits36]. destruct (n <? 36)%N eqn:E.
    + apply N.ltb_lt in E. unfold value36; simpl.
      rewrite N.mod_small by assumption. apply undigit36_digit36; assumption.
    + apply N.ltb_ge in E. rewrite digits36_acc, value36_snoc.
      rewrite IH.
      * rewrite undigit36_digit36 by (apply N.mod_lt; lia).
        symmetry. apply N.div_mod. lia.
      * rewrite Nat2N.inj_succ, N.pow_succ_r' in Hn.
        apply N.Div0.div_lt_upper_bound. lia.
Qed.

Lemma value36_N_toString36 (n : N) : value36 (N_toString36 n) = n.
Proof.
  unfold N_toString36. apply value36_digits36.
  rewrite Nat2N.inj_succ, N2Nat.id.
  destruct n as [|p]; [reflexivity|].
  apply N.log2_spec. reflexivity.
Qed.

Lemma digits36_S (fuel : nat) (n : N) (acc : jsstring) :
  digits36 (S fuel) n acc
  = if (n <? 36)%N then digit36 (n mod 36) :: acc
    else digits36 fuel (n / 36) (digit36 (n mod 36) :: acc).
Proof. reflexivity. Qed.

Lemma digits36_head (fuel : nat) : forall n,
  exists c r, digits36 (S fuel) n [] = c :: r /\ c <> 45%N.
Proof.
  induction fuel as [|fuel IH]; intros n; rewrite digits36_S.
  - destruct (n <? 36)%N; eexists _, _; split;
      try reflexivity; apply digit36_not_minus.
  - destruct (n <? 36)%N.
    + eexists _, _; split; [reflexivity | apply digit36_not_minus].
    + rewrite digits36_acc. destruct (IH (n / 36)%N) as (c & r & Hd & Hc).
      rewrite Hd. simpl. eauto.
Qed.

Lemma N_toString36_head (n : N) :
  exists c r, N_toString36 n = c :: r /\ c <> 45%N.
Proof. apply digits36_head. Qed.

(** [toString(36)] tells integers apart. *)
Lemma toString36_inj (a b : Z) : toString36 a = toString36 b -> a = b.
Proof.
  assert (HN : forall x y, N_toString36 x = N_toString36 y -> x = y).
  { intros x y H. rewrite <- (value36_N_toString36 x), H.
    apply value36_N_toString36. }
  assert (Hm : forall x y, N_toString36 x <> 45%N :: y).
  { intros x y H. destruct (N_toString36_head x) as (c & r & Hx & Hc).
    rewrite Hx in H. injection H as H _. contradiction. }
  destruct a as [|p|p], b as [|q|q]; simpl; intros H;
    try reflexivity;
    try (apply HN in H; congruence);
    try (exfalso; eapply Hm; eauto; fail);
    try (exfalso; eapply Hm; symmetry; eauto; fail).
  injection H as H. apply HN in H. congruence.
Qed.

Lemma app_inj_length {A} (a b c d : list A) :
  length a = length c -> a ++ b = c ++ d -> a = c /\ b = d.
Proof.
  revert c; induction a as [|x a IH]; intros [|y c]; simpl;
    try discriminate; auto.
  intros Hl H. injection Hl as Hl. injection H as -> H.
  destruct (IH c Hl H) as [-> ->]. auto.
Qed.

(** C6, amended. When the two clock readings have the same number of
    base-36 digits, two calls of [add] create tasks with the same id exactly
    when they read the same millisecond and keep the same five digits of
    their random draws: ids differ as soon as one of the two differs, and
    they coincide otherwise. *)
Theorem makeId_collides_iff (e1 e2 : Env) :
  length (toString36 (Date_now e1)) = length (toString36 (Date_now e2)) ->
  (makeId e1 = makeId e2 <->
   Date_now e1 = Date_now e2 /\
   slice 2 7 (Math_random_toString36 e1) = slice 2 7 (Math_random_toString36 e2)).
Proof.
  intros Hlen. unfold makeId. split.
  - intros H. apply app_inj_length in H; [|assumption].
    destruct H as [H1 H2]. split; [apply toString36_inj|]; assumption.
  - intros [-> ->]. reflexivity.
Qed.

Lemma makeId_collides_iff_witness : makeId env0 = makeId env1.
Proof.
  apply (proj2 (@makeId_collides_iff env0 env1 eq_refl)).
  split; reflexivity.
Defined.

(** C6 as worded fails: two calls of [add] in the same millisecond whose
    random draws agree on the five digits kept create two tasks with one
    id. *)
Lemma session_ids_unique_as_specified_fails :
  ~ session_ids_unique_as_specified env0 env1 str_x str_y.
Proof.
  intros H.
  destruct (H _ _ _ _ eq_refl eq_refl) as [Hne _]; try discriminate.
  apply Hne. reflexivity.
Qed.

(* ================================================================== *)
(** ** Effects *)

Lemma persist_effect_returns n2s (v : value) (w : World) :
  exists w', persist_effect n2s v w = (Normal tt, w') /\
             state w' = state w /\ effect_deps w' = effect_deps w.
Proof.
  unfold persist_effect, try_catch, setItem, localStorage.setItem.
  destruct (localStorage.writable (storage w)); simpl; eexists; repeat split.
Qed.

Lemma commit_effects_returns n2s (w : World) :
  exists w', commit_effects n2s w = (Normal tt, w') /\ state w' = state w.
Proof.
  unfold commit_effects. destruct (deps_changed w); [|eauto].
  unfold mbind.
  destruct (persist_effect_returns n2s (tasks (state w)) w) as (w' & -> & Hs & _).
  simpl. eauto.
Qed.

(** The loading effect never throws. *)
Lemma load_effect_returns (s : localStorage.t) :
  exists w1, load_effect (initial_world s) = (Normal tt, w1).
Proof.
  unfold load_effect, try_catch, mbind, getItem, localStorage.getItem.
  cbn [storage initial_world].
  destruct (localStorage.readable s); [|simpl; eexists; reflexivity].
  destruct (localStorage.find STORAGE_KEY (localStorage.items s)) as [raw|];
    [|simpl; eexists; reflexivity].
  destruct (truthy (Some raw)); [|simpl; eexists; reflexivity].
  unfold JSON_parse. destruct (JSON.parse raw); simpl; eexists; reflexivity.
Qed.

(** Mounting ends as the render of the state the loading effect left ends:
    it completes when that state renders, and throws what the render
    throws. The state is in both cases the one the loading effect left. *)
Lemma mount_as_render n2s (s : localStorage.t) (w1 : World) :
  load_effect (initial_world s) = (Normal tt, w1) ->
  exists w,
    mount n2s s = (match TodoAppExecutable (state w1) with
                   | Normal _ => Normal tt
                   | Throw e => Throw e
                   end, w) /\
    state w = state w1.
Proof.
  intros Hload.
  unfold mount. unfold mbind at 1. rewrite Hload.
  unfold mbind at 1.
  destruct (persist_effect_returns n2s (tasks initial_state) w1)
    as (w2 & -> & Hs2 & _).
  unfold mbind, render. cbn [state set_deps]. rewrite Hs2.
  destruct (TodoAppExecutable (state w1)) as [[]|e].
  - destruct (commit_effects_returns n2s (set_deps (tasks_ref initial_state) w2))
      as (w3 & -> & Hs3).
    exists w3. split; [reflexivity|]. rewrite Hs3. exact Hs2.
  - eexists. split; [reflexivity|]. exact Hs2.
Qed.

(** C8. At startup, when nothing is stored under the key, or when what is
    stored does not parse, the component ends up with the empty task list
    and mounting completes normally: nothing is thrown to the caller. *)
Theorem mount_without_usable_store n2s (s : localStorage.t) :
  (localStorage.find STORAGE_KEY (localStorage.items s) = None \/
   exists raw e, localStorage.find STORAGE_KEY (localStorage.items s) = Some raw /\
                 JSON.parse raw = Throw e) ->
  exists w, mount n2s s = (Normal tt, w) /\ tasks (state w) = VArr [].
Proof.
  intros H. destruct (load_effect_returns s) as (w1 & Hload).
  assert (Hst1 : state w1 = initial_state).
  { revert Hload.
    unfold load_effect, try_catch, mbind, getItem, localStorage.getItem.
    cbn [storage initial_world].
    destruct (localStorage.readable s).
    - destruct H as [-> | (raw & e & -> & Hp)].
      + simpl. intros [= <-]. reflexivity.
      + destruct (truthy (Some raw)).
        * unfold JSON_parse. rewrite Hp. simpl. intros [= <-]. reflexivity.
        * simpl. intros [= <-]. reflexivity.
    - simpl. intros [= <-]. reflexivity. }
  destruct (mount_as_render n2s s w1 Hload) as (w & Hmount & Hst).
  rewrite Hst1 in Hmount. exists w. split; [exact Hmount|].
  rewrite Hst, Hst1. reflexivity.
Qed.

Lemma mount_without_usable_store_witness :
  (exists w, mount number_as_read empty_storage = (Normal tt, w) /\
             tasks (state w) = VArr []) /\
  (exists w, mount number_as_read (storage_with raw_truncated) = (Normal tt, w) /\
             tasks (state w) = VArr []).
Proof.
  split.
  - apply (@mount_without_usable_store number_as_read empty_storage).
    left. reflexivity.
  - apply (@mount_without_usable_store number_as_read (storage_with raw_truncated)).
    right. exists raw_truncated, SyntaxError. split; reflexivity.
Defined.

(** With a readable store holding a non-empty text that parses, the
    loading effect hands the parsed value to [setTasks]. *)
Lemma load_effect_installs (s : localStorage.t) (raw : jsstring) (v : value) :
  localStorage.readable s = true ->
  localStorage.find STORAGE_KEY (localStorage.items s) = Some raw ->
  raw <> [] ->
  JSON.parse raw = Normal v ->
  exists w1,
    load_effect (initial_world s) = (Normal tt, w1) /\
    state w1 = setTasks v initial_state.
Proof.
  intros Hr Hf Hne Hp.
  unfold load_effect, try_catch, mbind, getItem, localStorage.getItem.
  cbn [storage initial_world]. rewrite Hr, Hf.
  destruct raw as [|c raw]; [contradiction|]. cbn [truthy].
  unfold JSON_parse. rewrite Hp. simpl. eexists. split; reflexivity.
Qed.

(** If moreover the parsed value renders, mounting completes with it as the
    task list. *)
Lemma mount_installs n2s (s : localStorage.t) (raw : jsstring) (v : value) :
  localStorage.readable s = true ->
  localStorage.find STORAGE_KEY (localStorage.items s) = Some raw ->
  raw <> [] ->
  JSON.parse raw = Normal v ->
  TodoAppExecutable (setTasks v initial_state) = Normal tt ->
  exists w, mount n2s s = (Normal tt, w) /\ tasks (state w) = v.
Proof.
  intros Hr Hf Hne Hp Hrender.
  destruct (load_effect_installs s raw v Hr Hf Hne Hp) as (w1 & Hload & Hst1).
  destruct (mount_as_render n2s s w1 Hload) as (w & Hmount & Hst).
  rewrite Hst1, Hrender in Hmount.
  exists w. split; [exact Hmount|]. rewrite Hst, Hst1. reflexivity.
Qed.

(** If it does not render, mounting throws what the render throws. *)
Lemma mount_refuses n2s (s : localStorage.t) (raw : jsstring) (v : value) (e : exn) :
  localStorage.readable s = true ->
  localStorage.find STORAGE_KEY (localStorage.items s) = Some raw ->
  raw <> [] ->
  JSON.parse raw = Normal v ->
  TodoAppExecutable (setTasks v initial_state) = Throw e ->
  exists w, mount n2s s = (Throw e, w) /\ tasks (state w) = v.
Proof.
  intros Hr Hf Hne Hp Hrender.
  destruct (load_effect_installs s raw v Hr Hf Hne Hp) as (w1 & Hload & Hst1).
  destruct (mount_as_render n2s s w1 Hload) as (w & Hmount & Hst).
  rewrite Hst1, Hrender in Hmount.
  exists w. split; [exact Hmount|]. rewrite Hst, Hst1. reflexivity.
Qed.

(** A list of records as [addTask] builds them renders, whatever the
    editing pointer, when the edit buffer is a string. *)
Lemma forM_task_element_tasks (ts : list Task) :
  forM task_element (List.map task_value ts) = Normal tt.
Proof. induction ts as [|t ts IH]; [reflexivity | exact IH]. Qed.

Lemma forM_row_child_tasks (st : State) (ts : list Task) :
  forM (row_child st) (List.map task_value ts) = Normal tt.
Proof.
  induction ts as [|t ts IH]; [reflexivity|].
  cbn [List.map forM]. unfold row_child at 1.
  destruct (shown_as_editor st (task_value t)); cbn [bind]; exact IH.
Qed.

Lemma tasks_render (st : State) (ts : list Task) (buffer : jsstring) :
  tasks st = VArr (List.map task_value ts) ->
  editingText st = VStr buffer ->
  TodoAppExecutable st = Normal tt.
Proof.
  intros Hl Hb. unfold TodoAppExecutable. rewrite Hl.
  rewrite forM_task_element_tasks, forM_row_child_tasks. cbn [bind].
  unfold editor_value. rewrite Hb.
  destruct (existsb _ _); reflexivity.
Qed.

(* ================================================================== *)
(** ** JSON: what is written is read back *)

Lemma hex_value_hex_digit (d : N) :
  (d < 16)%N -> JSON.hex_value (JSON.hex_digit d) = Some d.
Proof.
  intros H. unfold JSON.hex_value, JSON.hex_digit, is_digit.
  destruct (d <? 10)%N eqn:E.
  - apply N.ltb_lt in E.
    replace (48 <=? 48 + d)%N with true by (symmetry; apply N.leb_le; lia).
    replace (48 + d <=? 57)%N with true by (symmetry; apply N.leb_le; lia).
    cbn [andb]. f_equal. lia.
  - apply N.ltb_ge in E.
    replace (87 + d <=? 57)%N with false by (symmetry; apply N.leb_gt; lia).
    rewrite andb_false_r.
    replace (97 <=? 87 + d)%N with true by (symmetry; apply N.leb_le; lia).
    replace (87 + d <=? 102)%N with true by (symmetry; apply N.leb_le; lia).
    cbn [andb]. f_equal. lia.
Qed.

Lemma hex4_digits (c : N) :
  (c < 65536)%N ->
  JSON.hex4 (JSON.hex_digit ((c / 4096) mod 16)) (JSON.hex_digit ((c / 256) mod 16))
            (JSON.hex_digit ((c / 16) mod 16)) (JSON.hex_digit (c mod 16))
  = Some c.
Proof.
  intros H. unfold JSON.hex4.
  rewrite !hex_value_hex_digit by (apply N.mod_lt; lia).
  f_equal.
  assert (H1 := N.div_mod c 16).
  assert (H2 := N.div_mod (c / 16) 16).
  assert (H3 := N.div_mod (c / 256) 16).
  replace (c / 16 / 16)%N with (c / 256)%N in H2
    by (rewrite N.Div0.div_div; reflexivity).
  replace (c / 256 / 16)%N with (c / 4096)%N in H3
    by (rewrite N.Div0.div_div; reflexivity).
  assert (H4 : (c / 4096 < 16)%N) by (apply N.Div0.div_lt_upper_bound; lia).
  rewrite (N.mod_small (c / 4096) 16) by assumption.
  lia.
Qed.

(** A code unit written by [quote_unit] is read back as itself. *)
Lemma parse_chars_quote_unit (c : code_unit) (tail : jsstring) :
  JSON.parse_chars (JSON.quote_unit c ++ tail)
  = JSON.cons_char c (JSON.parse_chars tail).
Proof.
  unfold JSON.quote_unit.
  destruct (c =? 8)%N eqn:E8; [apply N.eqb_eq in E8; subst; reflexivity|].
  destruct (c =? 9)%N eqn:E9; [apply N.eqb_eq in E9; subst; reflexivity|].
  destruct (c =? 10)%N eqn:E10; [apply N.eqb_eq in E10; subst; reflexivity|].
  destruct (c =? 12)%N eqn:E12; [apply N.eqb_eq in E12; subst; reflexivity|].
  destruct (c =? 13)%N eqn:E13; [apply N.eqb_eq in E13; subst; reflexivity|].
  destruct (c =? 34)%N eqn:E34; [apply N.eqb_eq in E34; subst; reflexivity|].
  destruct (c =? 92)%N eqn:E92; [apply N.eqb_eq in E92; subst; reflexivity|].
  destruct ((c <? 32)%N || is_lead_surrogate c || is_trail_surrogate c) eqn:E.
  - assert (Hc : (c < 65536)%N).
    { unfold is_lead_surrogate, is_trail_surrogate in E.
      rewrite !orb_true_iff, !andb_true_iff, N.ltb_lt, !N.leb_le in E. lia. }
    unfold JSON.unicode_escape.
    change (JSON.parse_chars ([92; 117; ?a; ?b; ?x; ?y]%N ++ tail))
      with (match JSON.hex4 a b x y with
            | Some u => JSON.cons_char u (JSON.parse_chars tail)
            | None => None
            end).
    rewrite hex4_digits by assumption. reflexivity.
  - rewrite !orb_false_iff in E. destruct E as [[E32 _] _].
    simpl. rewrite E34, E92, E32. reflexivity.
Qed.

(** A surrogate pair, copied by [quote_body], is read back as itself. *)
Lemma parse_chars_pair (c d : code_unit) (tail : jsstring) :
  is_lead_surrogate c && is_trail_surrogate d = true ->
  JSON.parse_chars (c :: d :: tail)
  = JSON.cons_char c (JSON.cons_char d (JSON.parse_chars tail)).
Proof.
  unfold is_lead_surrogate, is_trail_surrogate.
  rewrite !andb_true_iff, !N.leb_le. intros [[H1 H2] [H3 H4]].
  cbn [JSON.parse_chars].
  replace (c =? 34)%N with false by (symmetry; apply N.eqb_neq; lia).
  replace (c =? 92)%N with false by (symmetry; apply N.eqb_neq; lia).
  replace (c <? 32)%N with false by (symmetry; apply N.ltb_ge; lia).
  replace (d =? 34)%N with false by (symmetry; apply N.eqb_neq; lia).
  replace (d =? 92)%N with false by (symmetry; apply N.eqb_neq; lia).
  replace (d <? 32)%N with false by (symmetry; apply N.ltb_ge; lia).
  reflexivity.
Qed.

Lemma parse_chars_quote_body_bounded (n : nat) : forall s rest,
  length s <= n ->
  JSON.parse_chars (JSON.quote_body s ++ 34%N :: rest) = Some (s, rest).
Proof.
  induction n as [|n IH]; intros s rest Hlen.
  - destruct s; [reflexivity | simpl in Hlen; lia].
  - destruct s as [|c r]; [reflexivity|].
    simpl in Hlen. cbn [JSON.quote_body].
    destruct r as [|d r'].
    + rewrite parse_chars_quote_unit. reflexivity.
    + destruct (is_lead_surrogate c && is_trail_surrogate d) eqn:E.
      * cbn [app]. rewrite parse_chars_pair by assumption.
        rewrite IH by (simpl in Hlen; lia). reflexivity.
      * rewrite <- app_assoc, parse_chars_quote_unit.
        rewrite IH by lia. reflexivity.
Qed.

(** The body of a string literal, followed by its closing quote, is read
    back as the string. *)
Lemma parse_chars_quote_body (s rest : jsstring) :
  JSON.parse_chars (JSON.quote_body s ++ 34%N :: rest) = Some (s, rest).
Proof. apply (parse_chars_quote_body_bounded (length s)). lia. Qed.

(* ------------------------------------------------------------------ *)
(** *** The parser consumes its input and does not depend on its fuel *)

Lemma skip_ws_length (s : jsstring) : length (JSON.skip_ws s) <= length s.
Proof.
  induction s as [|c r IH]; simpl; [lia|].
  destruct (JSON.is_json_ws c); simpl; lia.
Qed.

Lemma skip_ws_cons (s : jsstring) (c : code_unit) (r : jsstring) :
  JSON.skip_ws s = c :: r -> length r < length s.
Proof.
  intros H. pose proof (skip_ws_length s) as Hl. rewrite H in Hl.
  simpl in Hl. lia.
Qed.

Lemma cons_char_some c p k r :
  JSON.cons_char c p = Some (k, r) -> exists k', p = Some (k', r).
Proof.
  destruct p as [[k' r']|]; simpl; [|discriminate].
  intros [= _ <-]. eauto.
Qed.

Lemma parse_chars_length_bounded (n : nat) : forall s k r,
  length s <= n -> JSON.parse_chars s = Some (k, r) -> length r < length s.
Proof.
  induction n as [|n IH]; intros s k r Hn; destruct s as [|c s];
    simpl in Hn; try lia; try discriminate.
  cbn [JSON.parse_chars].
  destruct (c =? 34)%N.
  { intros [= _ <-]. simpl. lia. }
  destruct (c =? 92)%N.
  - destruct s as [|e s1]; [discriminate|].
    destruct (e =? 117)%N.
    + destruct s1 as [|h1 [|h2 [|h3 [|h4 s2]]]]; try discriminate.
      destruct (JSON.hex4 h1 h2 h3 h4); [|discriminate].
      intros H. apply cons_char_some in H. destruct H as [k' H].
      apply IH in H; simpl in *; lia.
    + destruct (JSON.escape_char e); [|discriminate].
      intros H. apply cons_char_some in H. destruct H as [k' H].
      apply IH in H; simpl in *; lia.
  - destruct (c <? 32)%N; [discriminate|].
    intros H. apply cons_char_some in H. destruct H as [k' H].
    apply IH in H; simpl in *; lia.
Qed.

Lemma parse_chars_length (s k r : jsstring) :
  JSON.parse_chars s = Some (k, r) -> length r < length s.
Proof. apply (parse_chars_length_bounded (length s)). lia. Qed.

Lemma span_digits_length (s : jsstring) : forall ds r,
  JSON.span_digits s = (ds, r) -> length r <= length s.
Proof.
  induction s as [|c s IH]; simpl; intros ds r.
  - intros [= _ <-]. simpl. lia.
  - destruct (is_digit c).
    + destruct (JSON.span_digits s) as [ds' r'] eqn:E.
      intros [= _ <-]. specialize (IH _ _ eq_refl). lia.
    + intros [= _ <-]. simpl. lia.
Qed.

Lemma strip_prefix_length (p : jsstring) : forall s r,
  JSON.strip_prefix p s = Some r -> length r <= length s.
Proof.
  induction p as [|x p IH]; intros s r; simpl.
  - intros [= <-]. lia.
  - destruct s as [|y s]; [discriminate|].
    destruct (x =? y)%N; [|discriminate].
    intros H. apply IH in H. simpl. lia.
Qed.

Ltac break_matches :=
  repeat match goal with
         | H' : context [match ?x with _ => _ end] |- _ =>
             let E := fresh "E" in destruct x eqn:E; try discriminate
         | H' : context [if ?b then _ else _] |- _ =>
             let E := fresh "E" in destruct b eqn:E; try discriminate
         end.

Ltac span_facts :=
  repeat match goal with
         | E : JSON.span_digits _ = (_, _) |- _ =>
             apply span_digits_length in E
         | E : (_, _) = (_, _) |- _ => injection E as ? ?; subst
         | E : Some _ = Some _ |- _ => injection E as ?; subst
         end.

Lemma lex_number_length (s x r : jsstring) :
  JSON.lex_number s = Some (x, r) -> length r <= length s.
Proof.
  unfold JSON.lex_number. intros H.
  break_matches; span_facts; simpl in *; try lia.
Qed.

Section ParserLevels.

Variable pv : jsstring -> option (value * jsstring).
Variable pe : jsstring -> option (list value * jsstring).
Variable pm : jsstring -> option (list (jsstring * value) * jsstring).

Hypothesis pv_length : forall s v r, pv s = Some (v, r) -> length r <= length s.
Hypothesis pe_length : forall s vs r, pe s = Some (vs, r) -> length r <= length s.
Hypothesis pm_length : forall s ms r, pm s = Some (ms, r) -> length r <= length s.

Lemma value_at_length s v r :
  JSON.value_at pe pm s = Some (v, r) -> length r <= length s.
Proof.
  unfold JSON.value_at. intros H.
  destruct (JSON.skip_ws s) as [|c t] eqn:Es; [discriminate|].
  apply skip_ws_cons in Es.
  break_matches; span_facts;
    repeat match goal with
           | E : JSON.parse_chars _ = Some _ |- _ => apply parse_chars_length in E
           | E : JSON.skip_ws _ = _ :: _ |- _ => apply skip_ws_cons in E
           | E : pe _ = Some _ |- _ => apply pe_length in E
           | E : pm _ = Some _ |- _ => apply pm_length in E
           | E : JSON.strip_prefix _ _ = Some _ |- _ => apply strip_prefix_length in E
           | E : JSON.lex_number _ = Some _ |- _ => apply lex_number_length in E
           end; simpl in *; lia.
Qed.

Lemma elements_at_length s vs r :
  JSON.elements_at pv pe s = Some (vs, r) -> length r <= length s.
Proof.
  unfold JSON.elements_at. intros H.
  break_matches; span_facts;
    repeat match goal with
           | E : JSON.skip_ws _ = _ :: _ |- _ => apply skip_ws_cons in E
           | E : pv _ = Some _ |- _ => apply pv_length in E
           | E : pe _ = Some _ |- _ => apply pe_length in E
           end; simpl in *; lia.
Qed.

Lemma members_at_length s ms r :
  JSON.members_at pv pm s = Some (ms, r) -> length r <= length s.
Proof.
  unfold JSON.members_at. intros H.
  break_matches; span_facts;
    repeat match goal with
           | E : JSON.parse_chars _ = Some _ |- _ => apply parse_chars_length in E
           | E : JSON.skip_ws _ = _ :: _ |- _ => apply skip_ws_cons in E
           | E : pv _ = Some _ |- _ => apply pv_length in E
           | E : pm _ = Some _ |- _ => apply pm_length in E
           end; simpl in *; lia.
Qed.

(** Each level asks its nested parsers only about shorter inputs. *)
Variable pv' : jsstring -> option (value * jsstring).
Variable pe' : jsstring -> option (list value * jsstring).
Variable pm' : jsstring -> option (list (jsstring * value) * jsstring).

Lemma value_at_ext s :
  (forall r, length r < length s -> pe r = pe' r) ->
  (forall r, length r < length s -> pm r = pm' r) ->
  JSON.value_at pe pm s = JSON.value_at pe' pm' s.
Proof.
  intros He Hm. unfold JSON.value_at.
  destruct (JSON.skip_ws s) as [|c t] eqn:Es; [reflexivity|].
  apply skip_ws_cons in Es.
  rewrite (He t) by assumption. rewrite (Hm t) by assumption.
  reflexivity.
Qed.

Lemma elements_at_ext s :
  pv s = pv' s ->
  (forall r, length r < length s -> pe r = pe' r) ->
  JSON.elements_at pv pe s = JSON.elements_at pv' pe' s.
Proof.
  intros Hv He. unfold JSON.elements_at. rewrite <- Hv.
  destruct (pv s) as [[v r]|] eqn:E; [|reflexivity].
  apply pv_length in E.
  destruct (JSON.skip_ws r) as [|c r'] eqn:Es; [reflexivity|].
  apply skip_ws_cons in Es.
  rewrite (He r') by lia. reflexivity.
Qed.

Lemma members_at_ext s :
  (forall r, length r < length s -> pv r = pv' r) ->
  (forall r, length r < length s -> pm r = pm' r) ->
  JSON.members_at pv pm s = JSON.members_at pv' pm' s.
Proof.
  intros Hv Hm. unfold JSON.members_at.
  destruct (JSON.skip_ws s) as [|q r0] eqn:E0; [reflexivity|].
  apply skip_ws_cons in E0.
  destruct (negb (q =? 34)%N); [reflexivity|].
  destruct (JSON.parse_chars r0) as [[k r1]|] eqn:E1; [|reflexivity].
  apply parse_chars_length in E1.
  destruct (JSON.skip_ws r1) as [|c r2] eqn:E2; [reflexivity|].
  apply skip_ws_cons in E2.
  destruct (negb (c =? 58)%N); [reflexivity|].
  rewrite <- (Hv r2) by lia.
  destruct (pv r2) as [[v r3]|] eqn:E3; [|reflexivity].
  apply pv_length in E3.
  destruct (JSON.skip_ws r3) as [|d r4] eqn:E4; [reflexivity|].
  apply skip_ws_cons in E4.
  rewrite (Hm r4) by lia. reflexivity.
Qed.

End ParserLevels.

(** What a parser leaves is never longer than what it was given. *)
Lemma parse_lengths (f : nat) :
  (forall s v r, JSON.parse_value f s = Some (v, r) -> length r <= length s) /\
  (forall s vs r, JSON.parse_elements f s = Some (vs, r) -> length r <= length s) /\
  (forall s ms r, JSON.parse_members f s = Some (ms, r) -> length r <= length s).
Proof.
  induction f as [|f (IHv & IHe & IHm)].
  - repeat split; intros; discriminate.
  - repeat split; intros s x r H; cbn [JSON.parse_value JSON.parse_elements
                                         JSON.parse_members] in H.
    + eapply value_at_length; eauto.
    + eapply elements_at_length; eauto.
    + eapply members_at_length; eauto.
Qed.

(** One more unit of fuel changes nothing once there is enough of it. *)
Lemma parse_fuel_step (f : nat) :
  (forall s, 2 * length s + 1 <= f ->
             JSON.parse_value (S f) s = JSON.parse_value f s) /\
  (forall s, 2 * length s + 2 <= f ->
             JSON.parse_elements (S f) s = JSON.parse_elements f s) /\
  (forall s, 2 * length s + 2 <= f ->
             JSON.parse_members (S f) s = JSON.parse_members f s).
Proof.
  induction f as [|f (IHv & IHe & IHm)].
  - repeat split; intros; lia.
  - destruct (parse_lengths f) as (Lv & Le & Lm).
    destruct (parse_lengths (S f)) as (Lv' & Le' & Lm').
    repeat split; intros s Hs.
    + change (JSON.value_at (JSON.parse_elements (S f)) (JSON.parse_members (S f)) s
              = JSON.value_at (JSON.parse_elements f) (JSON.parse_members f) s).
      apply value_at_ext; intros r Hr; [apply IHe | apply IHm]; lia.
    + change (JSON.elements_at (JSON.parse_value (S f)) (JSON.parse_elements (S f)) s
              = JSON.elements_at (JSON.parse_value f) (JSON.parse_elements f) s).
      apply elements_at_ext.
      * exact Lv'.
      * apply IHv; lia.
      * intros r Hr. apply IHe; lia.
    + change (JSON.members_at (JSON.parse_value (S f)) (JSON.parse_members (S f)) s
              = JSON.members_at (JSON.parse_value f) (JSON.parse_members f) s).
      apply members_at_ext.
      * exact Lv'.
      * intros r Hr. apply IHv; lia.
      * intros r Hr. apply IHm; lia.
Qed.

(** The fuel [parse] gives is enough: more fuel reads the same value, so a
    failure of [parse] is a failure of the grammar. *)
Lemma parse_value_fuel (s : jsstring) (f : nat) :
  2 * length s + 2 <= f ->
  JSON.parse_value f s = JSON.parse_value (2 * length s + 2) s.
Proof.
  intros H. induction H as [|f H IH]; [reflexivity|].
  rewrite <- IH. apply parse_fuel_step. lia.
Qed.

Lemma serialize_task n2s (t : Task) :
  JSON.serialize n2s (task_value t) = Some (task_text t).
Proof. reflexivity. Qed.

Lemma stringify_tasks n2s (ts : list Task) :
  JSON.stringify n2s (VArr (List.map task_value ts)) = Some (tasks_text ts).
Proof.
  unfold JSON.stringify, tasks_text. cbn [JSON.serialize].
  rewrite map_map. do 3 f_equal.
Qed.

Lemma parse_value_string (f : nat) (r : jsstring) :
  JSON.parse_value (S f) (34%N :: r)
  = match JSON.parse_chars r with
    | Some (str, r') => Some (VStr str, r')
    | None => None
    end.
Proof. reflexivity. Qed.

Lemma parse_value_object (f : nat) (r : jsstring) :
  JSON.parse_value (S f) (123%N :: 34%N :: r)
  = match JSON.parse_members f (34%N :: r) with
    | Some (ms, r'') =>
        Some (VObj (fold_left (fun o m => obj_define o (fst m) (snd m)) ms []), r'')
    | None => None
    end.
Proof. reflexivity. Qed.

Lemma parse_value_array (f : nat) (r : jsstring) :
  JSON.parse_value (S f) (91%N :: 123%N :: r)
  = match JSON.parse_elements f (123%N :: r) with
    | Some (vs, r'') => Some (VArr vs, r'')
    | None => None
    end.
Proof. reflexivity. Qed.

Lemma parse_elements_step (f : nat) (s : jsstring) :
  JSON.parse_elements (S f) s
  = match JSON.parse_value f s with
    | None => None
    | Some (v, r) =>
        match JSON.skip_ws r with
        | c :: r' =>
            if (c =? 44)%N then
              match JSON.parse_elements f r' with
              | Some (vs, r'') => Some (v :: vs, r'')
              | None => None
              end
            else if (c =? 93)%N then Some ([v], r')
            else None
        | [] => None
        end
    end.
Proof. reflexivity. Qed.

(** A member whose value is a string, followed by a comma or by the closing
    brace. *)
Lemma parse_members_string_more (f : nat) (k v r : jsstring) :
  JSON.parse_members (S (S f))
    (34%N :: JSON.quote_body k ++ 34%N :: 58%N :: 34%N
          :: JSON.quote_body v ++ 34%N :: 44%N :: r)
  = match JSON.parse_members (S f) r with
    | Some (ms, r') => Some ((k, VStr v) :: ms, r')
    | None => None
    end.
Proof.
  cbn [JSON.parse_members]. unfold JSON.members_at.
  cbn [JSON.skip_ws JSON.is_json_ws N.eqb Pos.eqb orb negb].
  rewrite parse_chars_quote_body.
  cbn [JSON.skip_ws JSON.is_json_ws N.eqb Pos.eqb orb negb].
  rewrite parse_value_string, parse_chars_quote_body.
  reflexivity.
Qed.

Lemma parse_members_string_last (f : nat) (k v r : jsstring) :
  JSON.parse_members (S (S f))
    (34%N :: JSON.quote_body k ++ 34%N :: 58%N :: 34%N
          :: JSON.quote_body v ++ 34%N :: 125%N :: r)
  = Some ([(k, VStr v)], r).
Proof.
  cbn [JSON.parse_members]. unfold JSON.members_at.
  cbn [JSON.skip_ws JSON.is_json_ws N.eqb Pos.eqb orb negb].
  rewrite parse_chars_quote_body.
  cbn [JSON.skip_ws JSON.is_json_ws N.eqb Pos.eqb orb negb].
  rewrite parse_value_string, parse_chars_quote_body.
  reflexivity.
Qed.

Lemma task_text_app (t : Task) (rest : jsstring) :
  task_text t ++ rest
  = 123%N :: 34%N :: JSON.quote_body key_id ++ 34%N :: 58%N :: 34%N
          :: JSON.quote_body (id t) ++ 34%N :: 44%N
          :: 34%N :: JSON.quote_body key_text ++ 34%N :: 58%N :: 34%N
          :: JSON.quote_body (text t) ++ 34%N :: 44%N
          :: 34%N :: JSON.quote_body key_created_at ++ 34%N :: 58%N :: 34%N
          :: JSON.quote_body (created_at t) ++ 34%N :: 125%N :: rest.
Proof.
  unfold task_text, member_text, JSON.QuoteJSONString.
  cbn [JSON.join_comma].
  repeat (rewrite <- app_assoc || rewrite <- app_comm_cons).
  reflexivity.
Qed.

(** One task is read back, whatever follows it, with five units of fuel or
    more. *)
Lemma parse_value_task (f : nat) (t : Task) (rest : jsstring) :
  JSON.parse_value (5 + f) (task_text t ++ rest) = Some (task_value t, rest).
Proof.
  rewrite task_text_app.
  change (5 + f) with (S (S (S (S (S f))))).
  rewrite parse_value_object.
  rewrite parse_members_string_more, parse_members_string_more,
    parse_members_string_last.
  reflexivity.
Qed.

Lemma parse_value_array_of_objects (f : nat) (s : jsstring) :
  (exists r, s = 123%N :: r) ->
  JSON.parse_value (S f) (91%N :: s)
  = match JSON.parse_elements f s with
    | Some (vs, r'') => Some (VArr vs, r'')
    | None => None
    end.
Proof. intros [r ->]. apply parse_value_array. Qed.

Lemma join_comma_cons2 (x y : jsstring) (l : list jsstring) :
  JSON.join_comma (x :: y :: l) = x ++ 44%N :: JSON.join_comma (y :: l).
Proof. reflexivity. Qed.

(** The elements of a non-empty task list are read back, up to the closing
    bracket, with fuel that grows with the number of tasks. *)
Lemma parse_elements_tasks (ts : list Task) : forall (t : Task) (f : nat) rest,
  JSON.parse_elements (6 + length ts + f)
    (JSON.join_comma (List.map task_text (t :: ts)) ++ 93%N :: rest)
  = Some (List.map task_value (t :: ts), rest).
Proof.
  induction ts as [|t' ts IH]; intros t f rest.
  - cbn [List.map JSON.join_comma length].
    change (6 + 0 + f) with (S (5 + f)).
    rewrite parse_elements_step, parse_value_task. reflexivity.
  - cbn [List.map]. rewrite join_comma_cons2, <- app_assoc, <- app_comm_cons.
    change (6 + length (t' :: ts) + f) with (S (5 + (1 + length ts + f))).
    rewrite parse_elements_step, parse_value_task.
    cbn [JSON.skip_ws JSON.is_json_ws N.eqb Pos.eqb orb].
    change (5 + (1 + length ts + f)) with (6 + length ts + f).
    change (task_text t' :: List.map task_text ts)
      with (List.map task_text (t' :: ts)).
    rewrite IH. reflexivity.
Qed.

Lemma task_text_length (t : Task) : 2 <= length (task_text t).
Proof. unfold task_text. cbn [length]. rewrite length_app. simpl. lia. Qed.

Lemma join_comma_tasks_length (ts : list Task) :
  2 * length ts <= length (JSON.join_comma (List.map task_text ts)).
Proof.
  induction ts as [|t ts IH]; [simpl; lia|].
  destruct ts as [|t' ts].
  - pose proof (task_text_length t). simpl in *. lia.
  - cbn [List.map] in *. rewrite join_comma_cons2, length_app.
    pose proof (task_text_length t). cbn [length] in *. lia.
Qed.

Lemma join_comma_tasks_head (t : Task) (ts : list Task) (tail : jsstring) :
  exists r, JSON.join_comma (List.map task_text (t :: ts)) ++ tail = 123%N :: r.
Proof.
  destruct ts as [|t' ts]; cbn [List.map].
  - cbn [JSON.join_comma]. unfold task_text. eexists. reflexivity.
  - rewrite join_comma_cons2. unfold task_text at 1. eexists. reflexivity.
Qed.

(** The text of a task list parses to that task list. *)
Lemma parse_tasks_text (ts : list Task) :
  JSON.parse (tasks_text ts) = Normal (VArr (List.map task_value ts)).
Proof.
  destruct ts as [|t ts]; [reflexivity|].
  unfold JSON.parse.
  pose proof (join_comma_tasks_length (t :: ts)) as Hlen.
  assert (Hfuel : exists f,
             2 * length (tasks_text (t :: ts)) + 2 = S (6 + length ts + f)).
  { unfold tasks_text. cbn [length] in *. rewrite length_app. cbn [length].
    exists (2 * S (length (JSON.join_comma (List.map task_text (t :: ts))) + 1)
            + 2 - S (6 + length ts)). lia. }
  destruct Hfuel as [f ->]. unfold tasks_text.
  rewrite parse_value_array_of_objects by apply join_comma_tasks_head.
  change [93%N] with (93%N :: []).
  rewrite parse_elements_tasks. reflexivity.
Qed.

(** C7. Serializing a task list and deserializing the result gives back the
    same list: the same tasks, with the same [id], [text] and [created_at],
    in the same order. *)
Theorem stringify_parse_roundtrip n2s (ts : list Task) :
  exists s,
    JSON.stringify n2s (VArr (List.map task_value ts)) = Some s /\
    JSON.parse s = Normal (VArr (List.map task_value ts)).
Proof.
  exists (tasks_text ts). split.
  - apply stringify_tasks.
  - apply parse_tasks_text.
Qed.

(* ================================================================== *)
(** ** What an edit changes, and what it writes *)

Lemma set_text_frame (id text : jsstring) (o : list (jsstring * value)) :
  (has_id id o = false -> set_text id text o = o) /\
  (forall k, k <> key_text -> lookup k (set_text id text o) = lookup k o) /\
  has_id id (set_text id text o) = has_id id o.
Proof.
  unfold set_text. destruct (has_id id o) eqn:E.
  - split; [discriminate|]. split.
    + intros k Hk. apply lookup_obj_define_other; assumption.
    + rewrite has_id_obj_define_text. assumption.
  - repeat split; auto.
Qed.

Lemma persist_effect_calls n2s (v : value) (w : World) :
  exists w',
    persist_effect n2s v w = (Normal tt, w') /\
    state w' = state w /\
    localStorage.setItem_calls (storage w')
    = localStorage.setItem_calls (storage w)
        ++ [(STORAGE_KEY, match JSON.stringify n2s v with
                          | Some s => s
                          | None => text_undefined
                          end)].
Proof.
  unfold persist_effect, try_catch, setItem, localStorage.setItem.
  destruct (localStorage.writable (storage w)); simpl; eexists; repeat split.
Qed.

(** C9, amended. With a non-empty trimmed text, [commitEdit(id, rawText)]
    keeps the length and the order of the list, leaves every task with
    another id as it is, and in the tasks with that id changes nothing but
    [text] ([id], [created_at] and any other field stay). It always writes
    the list to the store once, whether or not any text has changed. *)
Theorem saveEdit_frame_and_write n2s (id rawText : jsstring) (w : World)
    (os : list (list (jsstring * value))) :
  tasks (state w) = VArr (List.map VObj os) ->
  editingText (state w) = VStr rawText ->
  trim rawText <> [] ->
  effect_deps w = Some (tasks_ref (state w)) ->
  exists w' os' written,
    dispatch n2s (saveEdit id) w = (Normal VUndef, w') /\
    tasks (state w') = VArr (List.map VObj os') /\
    length os' = length os /\
    (forall i o, nth_error os i = Some o ->
       exists o', nth_error os' i = Some o' /\
                  (has_id id o = false -> o' = o) /\
                  (forall k, k <> key_text -> lookup k o' = lookup k o)) /\
    JSON.stringify n2s (tasks (state w')) = Some written /\
    localStorage.setItem_calls (storage w')
    = localStorage.setItem_calls (storage w) ++ [(STORAGE_KEY, written)].
Proof.
  intros Hl Ht Hne Hdeps.
  pose proof (saveEdit_records id rawText (state w) os Hl Ht Hne) as Hsave.
  set (st' := setEditingText (VStr [])
                (setEditingId VNull
                   (setTasks (VArr (List.map VObj
                                      (List.map (set_text id (trim rawText)) os)))
                             (state w)))) in *.
  assert (Htasks : tasks st'
                   = VArr (List.map VObj (List.map (set_text id (trim rawText)) os)))
    by reflexivity.
  assert (Href : tasks_ref st' = S (tasks_ref (state w))) by reflexivity.
  unfold dispatch. rewrite Hsave. unfold mbind, commit_effects, deps_changed.
  cbn [effect_deps set_state state]. rewrite Hdeps, Href.
  replace (negb (tasks_ref (state w) =? S (tasks_ref (state w)))) with true
    by (symmetry; apply negb_true_iff, Nat.eqb_neq; lia).
  destruct (persist_effect_calls n2s (tasks st') (set_state st' w))
    as (w1 & Hp & Hst & Hcalls).
  unfold mbind. rewrite Hp. cbn [ret].
  exists (set_deps (S (tasks_ref (state w))) w1),
         (List.map (set_text id (trim rawText)) os).
  rewrite Htasks in Hcalls. cbn [JSON.stringify JSON.serialize] in Hcalls.
  eexists. split; [reflexivity|].
  cbn [set_deps state storage]. rewrite Hst. cbn [set_state state].
  split; [assumption|]. split; [apply length_map|]. split.
  - intros i o Hi. exists (set_text id (trim rawText) o). split.
    + rewrite nth_error_map, Hi. reflexivity.
    + destruct (set_text_frame id (trim rawText) o) as (H1 & H2 & _). auto.
  - rewrite Htasks. cbn [JSON.stringify JSON.serialize].
    split; [reflexivity | exact Hcalls].
Qed.

Lemma saveEdit_frame_and_write_witness :
  exists w',
    dispatch number_as_read (saveEdit str_a) world_editing = (Normal VUndef, w') /\
    tasks (state w') = tasks (state world_editing) /\
    localStorage.setItem_calls (storage w')
    = [(STORAGE_KEY, tasks_text [task_a])].
Proof.
  destruct (@saveEdit_frame_and_write number_as_read str_a str_x world_editing
              [[(key_id, VStr str_a); (key_text, VStr str_x);
                (key_created_at, VStr [])]]
              eq_refl eq_refl)
    as (w' & os' & written & Hd & Ht & _ & _ & Hs & Hc);
    [discriminate | reflexivity |].
  exists w'. split; [exact Hd|].
  vm_compute in Hd. injection Hd as <-. split; reflexivity.
Defined.

(** C9 as worded fails: committing the text the task already has changes
    nothing in the list, and the list is written to the store all the
    same. *)
Lemma commit_writes_only_on_change_as_specified_fails :
  ~ commit_writes_only_on_change_as_specified number_as_read str_a world_editing.
Proof.
  intros H.
  refine (H VUndef _ eq_refl _ eq_refl).
  discriminate.
Qed.

(* ================================================================== *)
(** ** Trimming, and the texts of a session *)

Lemma trim_start_clean (s : jsstring) : starts_clean (trim_start s).
Proof.
  induction s as [|c s IH]; simpl; [exact I|].
  destruct (is_white_space c) eqn:E; [assumption | simpl; assumption].
Qed.

Lemma trim_start_of_clean (s : jsstring) : starts_clean s -> trim_start s = s.
Proof. destruct s as [|c s]; simpl; [reflexivity|]. intros ->. reflexivity. Qed.

Lemma trim_start_suffix (s : jsstring) : exists w, s = w ++ trim_start s.
Proof.
  induction s as [|c s [w IH]]; simpl; [exists []; reflexivity|].
  destruct (is_white_space c).
  - exists (c :: w). simpl. rewrite <- IH. reflexivity.
  - exists []. reflexivity.
Qed.

Lemma trim_end_clean (s : jsstring) : starts_clean s -> starts_clean (trim_end s).
Proof.
  intros Hs. unfold trim_end.
  destruct (trim_start_suffix (rev s)) as [w Hw].
  apply (f_equal (@rev code_unit)) in Hw.
  rewrite rev_involutive, rev_app_distr in Hw.
  destruct (rev (trim_start (rev s))) as [|c u]; [exact I|].
  rewrite Hw in Hs. exact Hs.
Qed.

(** Trimming a trimmed string changes nothing. *)
Lemma trim_idempotent (s : jsstring) : trim (trim s) = trim s.
Proof.
  unfold trim at 1.
  rewrite trim_start_of_clean
    by (apply trim_end_clean, trim_start_clean).
  unfold trim, trim_end.
  rewrite rev_involutive.
  rewrite (trim_start_of_clean (trim_start (rev (trim_start s))))
    by apply trim_start_clean.
  reflexivity.
Qed.

Lemma Forall_filter_keep {A} (P : A -> Prop) (f : A -> bool) (l : list A) :
  Forall P l -> Forall P (filter f l).
Proof.
  intros H. apply Forall_forall. intros x Hx. apply filter_In in Hx.
  rewrite Forall_forall in H. apply H. tauto.
Qed.

Lemma map_VObj_inj (a b : list (list (jsstring * value))) :
  List.map VObj a = List.map VObj b -> a = b.
Proof.
  revert b; induction a as [|x a IH]; intros [|y b]; simpl;
    try discriminate; [reflexivity|].
  intros [= -> H]. f_equal. auto.
Qed.

(** Every handler keeps the texts of the list non-blank. *)
Lemma handle_keeps_texts (ev : event) (st : State) (r : value) (st' : State) :
  texts_not_blank st -> handle ev st = Normal (r, st') -> texts_not_blank st'.
Proof.
  intros (os & Hl & Hall).
  assert (Hadd : forall e r st',
             addTask e st = Normal (r, st') -> texts_not_blank st').
  { intros e r0 st0. unfold addTask.
    destruct (str_eqb (trim (input st)) []) eqn:E.
    - intros [= _ <-]. exists os. auto.
    - apply str_eqb_neq in E. rewrite Hl. cbn [iterate bind].
      intros [= _ <-].
      exists (os ++ [[(key_id, VStr (makeId e)); (key_text, VStr (trim (input st)));
                      (key_created_at, VStr (Date_toISOString e))]]).
      split.
      + cbn [tasks setInput setTasks]. rewrite map_app. reflexivity.
      + apply Forall_app. split; [assumption|].
        constructor; [|constructor].
        exists (trim (input st)). split; [reflexivity|].
        rewrite trim_idempotent. assumption. }
  assert (Hsave : forall id r st',
             saveEdit id st = Normal (r, st') -> texts_not_blank st').
  { intros id r0 st0.
    destruct (editingText st) as [| | | |raw| |] eqn:Et;
      try (unfold saveEdit; rewrite Et; discriminate).
    destruct (str_eqb (trim raw) []) eqn:E.
    - apply str_eqb_nil in E.
      rewrite (saveEdit_records_blank id raw st Et E).
      intros [= _ <-]. exists os. auto.
    - apply str_eqb_neq in E.
      rewrite (saveEdit_records id raw st os Hl Et E).
      intros [= _ <-]. eexists. split; [reflexivity|].
      apply Forall_forall. intros o Ho. apply in_map_iff in Ho.
      destruct Ho as (o0 & <- & Ho0).
      rewrite Forall_forall in Hall. unfold set_text.
      destruct (has_id id o0).
      + exists (trim raw). unfold record_field.
        rewrite lookup_obj_define_same, trim_idempotent. auto.
      + apply Hall. assumption. }
  destruct ev as [s|e|e k|task|s|k id|id|id|]; cbn [handle].
  - intros [= _ <-]. exists os. auto.
  - apply Hadd.
  - unfold onInputKeyDown. destruct k.
    + destruct (addTask e st) as [[r0 st0]|] eqn:Ea; [|discriminate].
      cbn [bind snd]. intros [= _ <-]. eapply Hadd; eauto.
    + intros [= _ <-]. exists os. auto.
    + intros [= _ <-]. exists os. auto.
  - unfold startEdit. destruct (Get task key_id); [|discriminate].
    destruct (Get task key_text); [|discriminate].
    cbn [bind]. intros [= _ <-]. exists os. auto.
  - intros [= _ <-]. exists os. auto.
  - unfold onEditKeyDown. destruct k.
    + destruct (saveEdit id st) as [[r0 st0]|] eqn:Es; [|discriminate].
      cbn [bind snd]. intros [= _ <-]. eapply Hsave; eauto.
    + intros [= _ <-]. exists os. auto.
    + intros [= _ <-]. exists os. auto.
  - apply Hsave.
  - rewrite (deleteTask_records id st os Hl). intros [= _ <-].
    eexists. split; [reflexivity|]. apply Forall_filter_keep. assumption.
  - intros [= _ <-]. exists []. split; [reflexivity | constructor].
Qed.

(** In a session that starts with the empty list, no task ever has a blank
    text: the list is a list of records whose texts are non-blank
    strings. *)
Lemma session_texts_not_blank (st : State) :
  reachable initial_state st -> texts_not_blank st.
Proof.
  induction 1 as [|st ev r st' _ IH Hstep].
  - exists []. split; [reflexivity | constructor].
  - eapply handle_keeps_texts; eauto.
Qed.

(* ================================================================== *)
(** ** From one session to the next *)

Lemma find_put (k v : jsstring) (l : list (jsstring * jsstring)) :
  localStorage.find k (localStorage.put k v l) = Some v.
Proof.
  induction l as [|[k' v'] l IH]; simpl.
  - rewrite str_eqb_refl. reflexivity.
  - destruct (str_eqb k k') eqn:E; simpl; rewrite E; auto.
Qed.

Lemma tasks_text_not_empty (ts : list Task) : tasks_text ts <> [].
Proof. discriminate. Qed.

(** What the persisting effect has written for a task list is what the next
    mount installs, when the store accepts the write and allows the read. *)
Lemma mount_after_persist n2s (ts : list Task) (w : World) :
  localStorage.writable (storage w) = true ->
  localStorage.readable (storage w) = true ->
  exists w1 w2,
    persist_effect n2s (VArr (List.map task_value ts)) w = (Normal tt, w1) /\
    mount n2s (storage w1) = (Normal tt, w2) /\
    tasks (state w2) = VArr (List.map task_value ts).
Proof.
  intros Hw Hr.
  unfold persist_effect, try_catch, setItem, localStorage.setItem.
  rewrite Hw, stringify_tasks. cbn [set_storage].
  eexists. 
  destruct (mount_installs n2s
              {| localStorage.items :=
                   localStorage.put STORAGE_KEY (tasks_text ts)
                     (localStorage.items (storage w));
                 localStorage.readable := localStorage.readable (storage w);
                 localStorage.writable := localStorage.writable (storage w);
                 localStorage.setItem_calls :=
                   localStorage.setItem_calls (storage w)
                     ++ [(STORAGE_KEY, tasks_text ts)] |}
              (tasks_text ts) (VArr (List.map task_value ts)))
    as (w2 & Hm & Ht).
  - assumption.
  - apply find_put.
  - apply tasks_text_not_empty.
  - apply parse_tasks_text.
  - apply (tasks_render _ ts []); reflexivity.
  - exists w2. split; [reflexivity|]. split; [|assumption].
    rewrite Hw in Hm. exact Hm.
Qed.

(* ================================================================== *)
(** ** Loaded states *)

(** A stored text that is JSON but not a list cannot be rendered: the
    mount throws, with the first write already made. *)
Lemma mount_of_null_throws :
  exists w,
    mount number_as_read (storage_with raw_null) = (Throw TypeError, w) /\
    tasks (state w) = VNull /\
    localStorage.find STORAGE_KEY (localStorage.items (storage w))
    = Some [91%N; 93%N].
Proof. eexists. split; [reflexivity|]. split; reflexivity. Qed.

(** A session from the empty list can hold two tasks with one id. *)
Lemma session_with_repeated_id :
  exists st os,
    reachable initial_state st /\
    tasks st = VArr (List.map VObj os) /\
    ~ NoDup (List.map (record_field key_id) os).
Proof.
  set (t0 := {| id := makeId env0; text := str_x; created_at := str_iso |}).
  set (t1 := {| id := makeId env1; text := str_y; created_at := str_iso |}).
  exists {| tasks := VArr [task_value t0; task_value t1]; tasks_ref := 2;
            input := []; editingId := VNull; editingText := VStr [] |},
         [[(key_id, VStr (makeId env0)); (key_text, VStr str_x);
           (key_created_at, VStr str_iso)];
          [(key_id, VStr (makeId env1)); (key_text, VStr str_y);
           (key_created_at, VStr str_iso)]].
  split; [|split].
  - eapply reach_event with (ev := AddClick env1);
      [eapply reach_event with (ev := InputChange str_y);
       [eapply reach_event with (ev := AddClick env0);
        [eapply reach_event with (ev := InputChange str_x);
         [apply reach_start | reflexivity] | reflexivity] | reflexivity] |
       reflexivity].
  - reflexivity.
  - intros Hnd. inversion Hnd as [|x l Hnin _]. apply Hnin. left. reflexivity.
Qed.

(** C10, amended. Loading hands whatever [JSON.parse] built to [setTasks],
    unchecked. For every readable store holding a non-empty text that parses
    to [v]: when the component renders with [v] as its list, mounting
    completes and [tasks = v]; when that render throws, mounting throws the
    same and the component is unmounted: so it is for a stored [null]
    ([TypeError]) and for a record whose text is an object ([Error]). A
    stored list with a repeated id, a blank text and a record without text
    renders, and so becomes the task list. Of the rules of the data model a
    session that starts from the empty list keeps the one on texts (none is
    blank) and not the one on ids (two tasks can share one). *)
Theorem mount_installs_parsed_value n2s :
  (forall s raw v,
     localStorage.readable s = true ->
     localStorage.find STORAGE_KEY (localStorage.items s) = Some raw ->
     raw <> [] ->
     JSON.parse raw = Normal v ->
     (TodoAppExecutable (setTasks v initial_state) = Normal tt ->
      exists w, mount n2s s = (Normal tt, w) /\ tasks (state w) = v) /\
     (forall e, TodoAppExecutable (setTasks v initial_state) = Throw e ->
      exists w, mount n2s s = (Throw e, w) /\ tasks (state w) = v)) /\
  ((exists w, mount n2s (storage_with raw_null) = (Throw TypeError, w)) /\
   (exists w, mount n2s (storage_with raw_object_text) = (Throw Error, w))) /\
  (exists s w os,
     mount n2s s = (Normal tt, w) /\
     tasks (state w) = VArr (List.map VObj os) /\
     ~ NoDup (List.map (record_field key_id) os) /\
     (exists o t, In o os /\ record_field key_text o = VStr t /\ trim t = []) /\
     (exists o, In o os /\ lookup key_text o = None /\
                lookup key_created_at o = None) /\
     ~ texts_not_blank (state w)) /\
  (forall st, reachable initial_state st -> texts_not_blank st) /\
  (exists st os,
     reachable initial_state st /\
     tasks st = VArr (List.map VObj os) /\
     ~ NoDup (List.map (record_field key_id) os)).
Proof.
  split; [|split; [|split; [|split; [apply session_texts_not_blank
                                    | apply session_with_repeated_id]]]].
  - intros s raw v Hr Hf Hne Hp. split.
    + apply (mount_installs n2s s raw v Hr Hf Hne Hp).
    + intros e. apply (mount_refuses n2s s raw v e Hr Hf Hne Hp).
  - split.
    + destruct (mount_refuses n2s (storage_with raw_null) raw_null VNull
                  TypeError) as (w & Hm & _);
        try reflexivity; try discriminate.
      exists w. exact Hm.
    + destruct (mount_refuses n2s (storage_with raw_object_text)
                  raw_object_text
                  (VArr [VObj [(key_id, VStr str_a); (key_text, VObj [])]])
                  Error) as (w & Hm & _);
        try reflexivity; try discriminate.
      exists w. exact Hm.
  - destruct (mount_installs n2s (storage_with raw_invalid) raw_invalid
                (VArr (List.map VObj records_invalid)))
      as (w & Hm & Ht); try reflexivity; try discriminate.
    exists (storage_with raw_invalid), w, records_invalid.
    split; [assumption|]. split; [assumption|]. split; [|split; [|split]].
    + intros Hnd. inversion Hnd as [|x l Hnin _]. apply Hnin. left. reflexivity.
    + eexists _, _. split; [left; reflexivity|]. split; reflexivity.
    + eexists. split; [right; left; reflexivity|]. split; reflexivity.
    + intros (os & Hos & Hall). rewrite Ht in Hos.
      injection Hos as Hos.
      change (List.map VObj records_invalid = List.map VObj os) in Hos.
      apply map_VObj_inj in Hos. subst os.
      inversion Hall as [|o l (t & Hf & Hne) _]. subst.
      injection Hf as <-. apply Hne. reflexivity.
Qed.

Lemma mount_installs_parsed_value_witness :
  exists w, mount number_as_read (storage_with raw_invalid) = (Normal tt, w) /\
            tasks (state w) = VArr (List.map VObj records_invalid).
Proof.
  apply (proj1 (proj1 (mount_installs_parsed_value number_as_read)
                  (storage_with raw_invalid) raw_invalid
                  (VArr (List.map VObj records_invalid))
                  eq_refl eq_refl ltac:(discriminate) eq_refl)).
  reflexivity.
Defined.

(** C10 as worded fails twice: a stored [null] parses and is handed to
    [setTasks], but the component cannot render it and is unmounted, so it
    never is the task list of the started component; and the rules of the
    data model do not all hold in a session, which can hold a repeated
    id. *)
Lemma load_as_specified_fails :
  ~ parsed_value_is_installed_as_specified number_as_read /\
  ~ session_keeps_the_rules_as_specified.
Proof.
  split.
  - intros H.
    destruct (H (storage_with raw_null) raw_null VNull)
      as (w & Hm & _); try reflexivity; try discriminate.
  - intros H.
    destruct session_with_repeated_id as (st & os & Hreach & Ht & Hdup).
    destruct (H st Hreach) as (os' & Ht' & Hnd & _).
    rewrite Ht in Ht'. injection Ht' as Ht'. apply map_VObj_inj in Ht'.
    subst os'. contradiction.
Qed.

(* ================================================================== *)
(** ** Sessions through the interface *)

Lemma task_value_props (t : Task) : task_value t = VObj (task_props t).
Proof. reflexivity. Qed.

Lemma map_task_value (ts : list Task) :
  List.map task_value ts = List.map VObj (List.map task_props ts).
Proof. rewrite map_map. reflexivity. Qed.

Lemma has_id_task_props (i : jsstring) (t : Task) :
  has_id i (task_props t) = str_eqb (id t) i.
Proof. reflexivity. Qed.

Lemma set_text_task_props (i x : jsstring) (t : Task) :
  set_text i x (task_props t)
  = task_props (if str_eqb (id t) i then with_text x t else t).
Proof.
  unfold set_text. rewrite has_id_task_props.
  destruct (str_eqb (id t) i); reflexivity.
Qed.

Lemma filter_task_props (f : list (jsstring * value) -> bool) (ts : list Task) :
  filter f (List.map task_props ts)
  = List.map task_props (filter (fun t => f (task_props t)) ts).
Proof.
  induction ts as [|t ts IH]; simpl; [reflexivity|].
  destruct (f (task_props t)); simpl; rewrite IH; reflexivity.
Qed.

(** The handlers on a list of task records. *)
Lemma deleteTask_tasks (i : jsstring) (st : State) (ts : list Task) :
  tasks st = VArr (List.map task_value ts) ->
  deleteTask i st
  = Normal (VUndef,
            setTasks (VArr (List.map task_value
                              (filter (fun t => negb (str_eqb (id t) i)) ts))) st).
Proof.
  intros Hl. rewrite map_task_value in Hl.
  rewrite (deleteTask_records i st _ Hl), filter_task_props, map_task_value.
  reflexivity.
Qed.

Lemma saveEdit_tasks (i raw : jsstring) (st : State) (ts : list Task) :
  tasks st = VArr (List.map task_value ts) ->
  editingText st = VStr raw ->
  trim raw <> [] ->
  saveEdit i st
  = Normal (VUndef,
            setEditingText (VStr [])
              (setEditingId VNull
                 (setTasks
                    (VArr (List.map task_value
                             (List.map (fun t => if str_eqb (id t) i
                                                 then with_text (trim raw) t
                                                 else t) ts)))
                    st))).
Proof.
  intros Hl Ht Hne. rewrite map_task_value in Hl.
  rewrite (saveEdit_records i raw st _ Hl Ht Hne).
  rewrite map_task_value, !map_map.
  do 6 f_equal. apply map_ext. intros t. rewrite set_text_task_props.
  reflexivity.
Qed.

Lemma addTask_tasks (e : Env) (st : State) (ts : list Task) :
  tasks st = VArr (List.map task_value ts) ->
  trim (input st) <> [] ->
  addTask e st
  = Normal (VUndef,
            setInput []
              (setTasks
                 (VArr (List.map task_value
                          (ts ++ [{| id := makeId e; text := trim (input st);
                                     created_at := Date_toISOString e |}])))
                 st)).
Proof.
  intros Hl Hne. unfold addTask.
  destruct (str_eqb (trim (input st)) []) eqn:E;
    [apply str_eqb_nil in E; contradiction|].
  rewrite Hl. cbn [iterate bind]. rewrite map_app. reflexivity.
Qed.

Lemma addTask_blank (e : Env) (st : State) :
  trim (input st) = [] -> addTask e st = Normal (VUndef, st).
Proof. intros H. unfold addTask. rewrite H. reflexivity. Qed.

(** A handler that returns has either left the list alone or replaced it
    once; it returns [undefined]. *)
Lemma handle_ref (ev : event) (st : State) (r : value) (st' : State) :
  handle ev st = Normal (r, st') ->
  r = VUndef /\
  ((tasks_ref st' = tasks_ref st /\ tasks st' = tasks st) \/
   tasks_ref st' = S (tasks_ref st)).
Proof.
  assert (Hadd : forall e r st',
             addTask e st = Normal (r, st') ->
             r = VUndef /\
             ((tasks_ref st' = tasks_ref st /\ tasks st' = tasks st) \/
              tasks_ref st' = S (tasks_ref st))).
  { intros e r0 st0. unfold addTask.
    destruct (str_eqb (trim (input st)) []).
    - intros [= <- <-]. auto.
    - destruct (iterate (tasks st)); [|discriminate].
      cbn [bind]. intros [= <- <-]. auto. }
  assert (Hsave : forall i r st',
             saveEdit i st = Normal (r, st') ->
             r = VUndef /\
             ((tasks_ref st' = tasks_ref st /\ tasks st' = tasks st) \/
              tasks_ref st' = S (tasks_ref st))).
  { intros i r0 st0. unfold saveEdit.
    destruct (editingText st); try discriminate.
    destruct (str_eqb (trim s) []).
    - intros [= <- <-]. auto.
    - destruct (Array_map _ (tasks st)); [|discriminate].
      cbn [bind]. intros [= <- <-]. auto. }
  destruct ev as [s|e|e k|task|s|k i|i|i|]; cbn [handle].
  - intros [= <- <-]. auto.
  - apply Hadd.
  - unfold onInputKeyDown. destruct k.
    + destruct (addTask e st) as [[r0 st0]|] eqn:Ea; [|discriminate].
      cbn [bind snd]. intros [= <- <-]. split; [reflexivity|].
      eapply Hadd; eauto.
    + intros [= <- <-]. auto.
    + intros [= <- <-]. auto.
  - unfold startEdit. destruct (Get task key_id); [|discriminate].
    destruct (Get task key_text); [|discriminate].
    cbn [bind]. intros [= <- <-]. auto.
  - intros [= <- <-]. auto.
  - unfold onEditKeyDown. destruct k.
    + destruct (saveEdit i st) as [[r0 st0]|] eqn:Es; [|discriminate].
      cbn [bind snd]. intros [= <- <-]. split; [reflexivity|].
      eapply Hsave; eauto.
    + intros [= <- <-]. auto.
    + intros [= <- <-]. auto.
  - apply Hsave.
  - unfold deleteTask. destruct (Array_filter _ (tasks st)); [|discriminate].
    cbn [bind]. intros [= <- <-]. auto.
  - intros [= <- <-]. auto.
Qed.

Lemma Forall_trimmed_map (i x : jsstring) (ts : list Task) :
  trim x = x -> x <> [] ->
  Forall trimmed_text ts ->
  Forall trimmed_text
    (List.map (fun t => if str_eqb (id t) i then with_text x t else t) ts).
Proof.
  intros Hx Hne Hall. apply Forall_forall. intros t Ht.
  apply in_map_iff in Ht. destruct Ht as (u & <- & Hu).
  rewrite Forall_forall in Hall.
  destruct (str_eqb (id u) i); [split; assumption | auto].
Qed.

(** On a well-formed state every offered event is handled: the handler
    returns, and the state it leaves is well-formed. *)
Lemma handle_well_formed (ev : event) (st : State) :
  well_formed st -> offered st ev ->
  exists st', handle ev st = Normal (VUndef, st') /\ well_formed st'.
Proof.
  intros ((ts & Hl & Hall) & (buf & Hbuf) & Hptr) Hoff.
  assert (Hsame : well_formed st).
  { split; [exists ts; auto|]. split; [exists buf; auto | assumption]. }
  assert (Hadd : forall e,
             exists st', addTask e st = Normal (VUndef, st') /\ well_formed st').
  { intros e. destruct (str_eqb (trim (input st)) []) eqn:E.
    - apply str_eqb_nil in E. rewrite (addTask_blank e st E). eauto.
    - apply str_eqb_neq in E. rewrite (addTask_tasks e st ts Hl E).
      eexists. split; [reflexivity|]. split; [|split].
      + eexists. split; [reflexivity|]. apply Forall_app. split; [assumption|].
        constructor; [|constructor]. split; [apply trim_idempotent | exact E].
      + exists buf. assumption.
      + assumption. }
  assert (Hsave : forall i,
             exists st', saveEdit i st = Normal (VUndef, st') /\ well_formed st').
  { intros i. destruct (str_eqb (trim buf) []) eqn:E.
    - apply str_eqb_nil in E. rewrite (saveEdit_records_blank i buf st Hbuf E).
      eexists. split; [reflexivity|]. split; [exists ts; auto|].
      split; [exists []; reflexivity | left; reflexivity].
    - apply str_eqb_neq in E. rewrite (saveEdit_tasks i buf st ts Hl Hbuf E).
      eexists. split; [reflexivity|]. split; [|split].
      + eexists. split; [reflexivity|].
        apply Forall_trimmed_map; auto using trim_idempotent.
      + exists []. reflexivity.
      + left. reflexivity. }
  destruct ev as [s|e|e k|task|s|k i|i|i|]; cbn [handle].
  - eexists. split; [reflexivity|].
    split; [exists ts; auto|]. split; [exists buf; auto | assumption].
  - apply Hadd.
  - unfold onInputKeyDown. destruct k; [|eauto|eauto].
    destruct (Hadd e) as (st' & -> & Hwf). cbn [bind snd]. eauto.
  - destruct Hoff as (l & Hl' & Hin). rewrite Hl in Hl'. injection Hl' as <-.
    apply in_map_iff in Hin. destruct Hin as (t & <- & _).
    eexists. split; [reflexivity|].
    split; [exists ts; auto|]. split; [eexists; reflexivity|].
    right. eexists. reflexivity.
  - eexists. split; [reflexivity|].
    split; [exists ts; auto|]. split; [exists s; reflexivity | assumption].
  - unfold onEditKeyDown. destruct k.
    + destruct (Hsave i) as (st' & -> & Hwf). cbn [bind snd]. eauto.
    + eexists. split; [reflexivity|]. split; [exists ts; auto|].
      split; [exists []; reflexivity | left; reflexivity].
    + eauto.
  - apply Hsave.
  - rewrite (deleteTask_tasks i st ts Hl). eexists. split; [reflexivity|].
    split; [|split; [exists buf; assumption | assumption]].
    eexists. split; [reflexivity|]. apply Forall_filter_keep. assumption.
  - eexists. split; [reflexivity|]. split; [|split; [exists buf; assumption | assumption]].
    exists []. split; [reflexivity | constructor].
Qed.

Lemma initial_state_well_formed : well_formed initial_state.
Proof.
  split; [exists []; split; [reflexivity | constructor]|].
  split; [exists []; reflexivity | left; reflexivity].
Qed.

Lemma ui_reachable_well_formed (st0 st : State) :
  well_formed st0 -> ui_reachable st0 st -> well_formed st.
Proof.
  intros H0. induction 1 as [|st ev r st' _ IH Hoff Hstep]; [assumption|].
  destruct (handle_well_formed ev st IH Hoff) as (st1 & Hh & Hwf).
  rewrite Hh in Hstep. injection Hstep as _ <-. assumption.
Qed.

(* ================================================================== *)
(** ** The store during a session *)

Lemma persist_effect_accepted n2s (v : value) (w : World) :
  localStorage.writable (storage w) = true ->
  persist_effect n2s v w
  = (Normal tt,
     set_storage (snd (localStorage.setItem STORAGE_KEY (store_text n2s v)
                         (storage w))) w).
Proof.
  intros Hw. unfold persist_effect, try_catch, setItem, localStorage.setItem.
  fold (store_text n2s v). rewrite Hw. reflexivity.
Qed.

Lemma persist_effect_refused n2s (v : value) (w : World) :
  localStorage.writable (storage w) = false ->
  persist_effect n2s v w
  = (Normal tt,
     {| state := state w; effect_deps := effect_deps w;
        storage := snd (localStorage.setItem STORAGE_KEY (store_text n2s v)
                          (storage w));
        console := console w ++ [(msg_save, DOMException)] |}).
Proof.
  intros Hw. unfold persist_effect, try_catch, setItem, localStorage.setItem.
  fold (store_text n2s v). rewrite Hw. reflexivity.
Qed.

(** An event whose handler leaves the list alone: nothing but the state
    changes. *)
Lemma dispatch_unchanged_list n2s (h : handler) (w : World) r st' :
  effect_deps w = Some (tasks_ref (state w)) ->
  h (state w) = Normal (r, st') ->
  tasks_ref st' = tasks_ref (state w) ->
  dispatch n2s h w = (Normal r, set_state st' w).
Proof.
  intros Hd Hh Href. unfold dispatch. rewrite Hh.
  unfold mbind, commit_effects, deps_changed. cbn [effect_deps set_state state].
  rewrite Hd, Href, Nat.eqb_refl. reflexivity.
Qed.

(** An event whose handler replaces the list: the persisting effect runs
    once, on the new list. *)
Lemma dispatch_replaced_list n2s (h : handler) (w : World) r st' :
  effect_deps w = Some (tasks_ref (state w)) ->
  h (state w) = Normal (r, st') ->
  tasks_ref st' = S (tasks_ref (state w)) ->
  exists w',
    dispatch n2s h w = (Normal r, w') /\
    state w' = st' /\
    effect_deps w' = Some (tasks_ref st') /\
    storage w' = snd (localStorage.setItem STORAGE_KEY
                        (store_text n2s (tasks st')) (storage w)) /\
    console w' = if localStorage.writable (storage w) then console w
                 else console w ++ [(msg_save, DOMException)].
Proof.
  intros Hd Hh Href. unfold dispatch. rewrite Hh.
  unfold mbind, commit_effects, deps_changed. cbn [effect_deps set_state state].
  rewrite Hd, Href.
  replace (negb (tasks_ref (state w) =? S (tasks_ref (state w)))) with true
    by (symmetry; apply negb_true_iff, Nat.eqb_neq; lia).
  unfold mbind.
  destruct (localStorage.writable (storage w)) eqn:Hw.
  - rewrite persist_effect_accepted by exact Hw.
    eexists. split; [reflexivity|]. repeat split.
  - rewrite persist_effect_refused by exact Hw.
    eexists. split; [reflexivity|]. repeat split.
Qed.

Lemma setItem_flags (k v : jsstring) (s : localStorage.t) :
  localStorage.readable (snd (localStorage.setItem k v s)) = localStorage.readable s /\
  localStorage.writable (snd (localStorage.setItem k v s)) = localStorage.writable s /\
  localStorage.setItem_calls (snd (localStorage.setItem k v s))
  = localStorage.setItem_calls s ++ [(k, v)].
Proof.
  unfold localStorage.setItem. destruct (localStorage.writable s) eqn:E;
    cbn [snd localStorage.readable localStorage.writable
         localStorage.setItem_calls]; auto.
Qed.

Lemma setItem_items (k v : jsstring) (s : localStorage.t) :
  localStorage.items (snd (localStorage.setItem k v s))
  = if localStorage.writable s then localStorage.put k v (localStorage.items s)
    else localStorage.items s.
Proof.
  unfold localStorage.setItem. destruct (localStorage.writable s); reflexivity.
Qed.

(** With a store that accepts writes, an event keeps the store the mirror
    of the list. *)
Lemma dispatch_mirrored n2s (ev : event) (w : World) r st' :
  mirrored n2s w ->
  localStorage.writable (storage w) = true ->
  handle ev (state w) = Normal (r, st') ->
  exists w',
    dispatch n2s (handle ev) w = (Normal r, w') /\
    state w' = st' /\
    mirrored n2s w' /\
    localStorage.writable (storage w') = true /\
    localStorage.readable (storage w') = localStorage.readable (storage w) /\
    console w' = console w.
Proof.
  intros [Hd Hfind] Hw Hh.
  destruct (handle_ref ev (state w) r st' Hh) as [_ [[Href Htasks] | Href]].
  - rewrite (dispatch_unchanged_list n2s (handle ev) w r st' Hd Hh Href).
    eexists. split; [reflexivity|]. split; [reflexivity|].
    split; [|repeat split; assumption].
    split; cbn [set_state state storage effect_deps].
    + rewrite Href. assumption.
    + rewrite Htasks. assumption.
  - destruct (dispatch_replaced_list n2s (handle ev) w r st' Hd Hh Href)
      as (w' & Hdis & Hst & Hdeps & Hsto & Hcon).
    exists w'. split; [assumption|].
    destruct (setItem_flags STORAGE_KEY (store_text n2s (tasks st')) (storage w))
      as (Hr & Hw' & _).
    rewrite Hw in Hcon. repeat split; try assumption.
    + rewrite Hst. assumption.
    + rewrite Hsto, setItem_items, Hw, find_put, Hst. reflexivity.
    + rewrite Hsto, Hw'. assumption.
    + rewrite Hsto. assumption.
Qed.

(** What the loading effect leaves, case by case. *)
Lemma load_effect_cases (s : localStorage.t) :
  exists w1,
    load_effect (initial_world s) = (Normal tt, w1) /\
    storage w1 = s /\ effect_deps w1 = None /\
    ((state w1 = initial_state /\ console w1 = [(msg_load, DOMException)] /\
      localStorage.readable s = false)
     \/
     (state w1 = initial_state /\ console w1 = [] /\
      localStorage.readable s = true /\
      (localStorage.find STORAGE_KEY (localStorage.items s) = None \/
       localStorage.find STORAGE_KEY (localStorage.items s) = Some []))
     \/
     (exists raw e,
        state w1 = initial_state /\ console w1 = [(msg_load, e)] /\
        localStorage.readable s = true /\
        localStorage.find STORAGE_KEY (localStorage.items s) = Some raw /\
        raw <> [] /\ JSON.parse raw = Throw e)
     \/
     (exists raw v,
        state w1 = setTasks v initial_state /\ console w1 = [] /\
        localStorage.readable s = true /\
        localStorage.find STORAGE_KEY (localStorage.items s) = Some raw /\
        raw <> [] /\ JSON.parse raw = Normal v)).
Proof.
  unfold load_effect, try_catch, mbind, getItem, localStorage.getItem.
  cbn [storage initial_world].
  destruct (localStorage.readable s) eqn:Hr.
  - destruct (localStorage.find STORAGE_KEY (localStorage.items s))
      as [[|c raw]|] eqn:Hf.
    + eexists. split; [reflexivity|]. repeat split. right. left. auto.
    + cbn [truthy]. unfold JSON_parse.
      destruct (JSON.parse (c :: raw)) as [v|e] eqn:Hp.
      * eexists. split; [reflexivity|]. repeat split.
        right. right. right. exists (c :: raw), v.
        repeat split; try assumption; discriminate.
      * eexists. split; [reflexivity|]. repeat split.
        right. right. left. exists (c :: raw), e.
        repeat split; try assumption; discriminate.
    + eexists. split; [reflexivity|]. repeat split. right. left. auto.
  - eexists. split; [reflexivity|]. repeat split. left. auto.
Qed.

(** Mounting with a store that accepts writes, in terms of what the loading
    effect left, when that renders. *)
Lemma mount_accepted n2s (s : localStorage.t) (w1 : World) :
  localStorage.writable s = true ->
  load_effect (initial_world s) = (Normal tt, w1) ->
  storage w1 = s -> effect_deps w1 = None ->
  (state w1 = initial_state \/ exists v, state w1 = setTasks v initial_state) ->
  TodoAppExecutable (state w1) = Normal tt ->
  exists w,
    mount n2s s = (Normal tt, w) /\
    state w = state w1 /\ console w = console w1 /\
    effect_deps w = Some (tasks_ref (state w1)) /\
    localStorage.readable (storage w) = localStorage.readable s /\
    localStorage.writable (storage w) = true /\
    localStorage.find STORAGE_KEY (localStorage.items (storage w))
    = Some (store_text n2s (tasks (state w1))) /\
    localStorage.setItem_calls (storage w)
    = localStorage.setItem_calls s
        ++ (STORAGE_KEY, store_text n2s (VArr []))
        :: (if tasks_ref (state w1) =? 0 then []
            else [(STORAGE_KEY, store_text n2s (tasks (state w1)))]).
Proof.
  intros Hw Hload Hsto Hdeps Hstate Hrender.
  unfold mount, mbind. rewrite Hload.
  rewrite persist_effect_accepted by (rewrite Hsto; exact Hw).
  unfold render. cbn [state set_deps set_storage]. rewrite Hrender.
  unfold commit_effects, deps_changed, mbind.
  cbn [effect_deps set_deps set_storage state storage tasks initial_state
       tasks_ref].
  destruct (setItem_flags STORAGE_KEY (store_text n2s (VArr [])) (storage w1))
    as (Hr1 & Hw1 & Hc1).
  pose proof (setItem_items STORAGE_KEY (store_text n2s (VArr [])) (storage w1))
    as Hi1.
  rewrite Hsto in Hr1, Hw1, Hc1, Hi1. rewrite Hw in Hi1, Hw1.
  destruct Hstate as [Hst | [v Hst]]; rewrite Hst;
    cbn [tasks_ref initial_state setTasks Nat.eqb negb tasks].
  - eexists. split; [reflexivity|].
    cbn [state set_deps set_storage console effect_deps storage].
    rewrite Hsto, Hr1, Hw1, Hc1, Hi1, find_put.
    repeat split; assumption.
  - rewrite persist_effect_accepted
      by (cbn [storage set_deps set_storage]; rewrite Hsto; exact Hw1).
    cbn [storage set_deps set_storage]. rewrite Hsto.
    destruct (setItem_flags STORAGE_KEY (store_text n2s v)
                (snd (localStorage.setItem STORAGE_KEY (store_text n2s (VArr []))
                        s))) as (Hr2 & Hw2 & Hc2).
    pose proof (setItem_items STORAGE_KEY (store_text n2s v)
                  (snd (localStorage.setItem STORAGE_KEY
                          (store_text n2s (VArr [])) s))) as Hi2.
    rewrite Hw1 in Hi2.
    eexists. split; [reflexivity|].
    cbn [state set_deps set_storage console effect_deps storage].
    rewrite Hr2, Hw2, Hc2, Hi2, Hr1, Hw1, Hc1, find_put.
    rewrite <- app_assoc. repeat split; assumption.
Qed.

(** The same when what the loading effect left does not render: the mount
    throws after the write of the first render, which is its only one. *)
Lemma mount_rejected n2s (s : localStorage.t) (w1 : World) (e : exn) :
  localStorage.writable s = true ->
  load_effect (initial_world s) = (Normal tt, w1) ->
  storage w1 = s ->
  TodoAppExecutable (state w1) = Throw e ->
  exists w,
    mount n2s s = (Throw e, w) /\
    state w = state w1 /\ console w = console w1 /\
    localStorage.find STORAGE_KEY (localStorage.items (storage w))
    = Some (store_text n2s (VArr [])) /\
    localStorage.setItem_calls (storage w)
    = localStorage.setItem_calls s ++ [(STORAGE_KEY, store_text n2s (VArr []))].
Proof.
  intros Hw Hload Hsto Hrender.
  unfold mount, mbind. rewrite Hload.
  rewrite persist_effect_accepted by (rewrite Hsto; exact Hw).
  unfold render. cbn [state set_deps set_storage]. rewrite Hrender.
  destruct (setItem_flags STORAGE_KEY (store_text n2s (VArr [])) (storage w1))
    as (_ & _ & Hc1).
  pose proof (setItem_items STORAGE_KEY (store_text n2s (VArr [])) (storage w1))
    as Hi1.
  rewrite Hsto in Hc1, Hi1. rewrite Hw in Hi1.
  eexists. split; [reflexivity|].
  cbn [state set_deps set_storage console storage tasks initial_state].
  rewrite Hsto, Hi1, Hc1, find_put. repeat split.
Qed.


Lemma set_state_same (w : World) : set_state (state w) w = w.
Proof. destruct w. reflexivity. Qed.

Lemma filter_none {A} (f : A -> bool) (l : list A) :
  (forall x, In x l -> f x = true) -> filter f l = l.
Proof.
  induction l as [|x l IH]; simpl; intros H; [reflexivity|].
  rewrite (H x) by auto. rewrite IH by auto. reflexivity.
Qed.

Lemma NoDup_ids_same (ts : list Task) (t u : Task) :
  NoDup (List.map id ts) -> In t ts -> In u ts -> id u = id t -> u = t.
Proof.
  induction ts as [|x ts IH]; simpl; [tauto|].
  intros Hnd. inversion Hnd as [|? ? Hnin Hnd']; subst.
  intros [-> | Ht] [-> | Hu] Hid; auto.
  - exfalso. apply Hnin. rewrite <- Hid. apply in_map. assumption.
  - exfalso. apply Hnin. rewrite Hid. apply in_map. assumption.
Qed.

Lemma with_text_same (t : Task) : with_text (text t) t = t.
Proof. destruct t. reflexivity. Qed.

(* ------------------------------------------------------------------ *)
(** *** The length of a clock reading in base 36 *)

Lemma digits36_length (k : nat) : forall (fuel : nat) (n : N),
  k <= fuel ->
  (n < 36 ^ N.of_nat (S k))%N ->
  ((36 ^ N.of_nat k <= n)%N \/ k = 0) ->
  length (digits36 (S fuel) n []) = S k.
Proof.
  induction k as [|k IH]; intros fuel n Hf Hlt Hge; rewrite digits36_S.
  - change (36 ^ N.of_nat 1)%N with 36%N in Hlt.
    replace (n <? 36)%N with true by (symmetry; apply N.ltb_lt; lia).
    reflexivity.
  - destruct Hge as [Hge | Hk]; [|discriminate].
    rewrite Nat2N.inj_succ, N.pow_succ_r' in Hge.
    assert (H1 : (1 <= 36 ^ N.of_nat k)%N).
    { pose proof (N.pow_nonzero 36 (N.of_nat k)). lia. }
    replace (n <? 36)%N with false by (symmetry; apply N.ltb_ge; lia).
    destruct fuel as [|fuel]; [lia|].
    rewrite digits36_acc, length_app. cbn [length].
    rewrite (IH fuel (n / 36)%N).
    + lia.
    + lia.
    + rewrite (Nat2N.inj_succ (S k)), N.pow_succ_r' in Hlt.
      apply N.Div0.div_lt_upper_bound. lia.
    + left. apply N.div_le_lower_bound; lia.
Qed.

Lemma toString36_eight_digits (z : Z) :
  eight_digit_clock z -> length (toString36 z) = 8.
Proof.
  unfold eight_digit_clock. intros [Hlo Hhi].
  destruct z as [|p|p]; try lia.
  cbn [toString36]. unfold N_toString36.
  apply (digits36_length 7).
  - assert (H : (N.log2 (2 ^ 36) <= N.log2 (N.pos p))%N).
    { apply N.log2_le_mono. change (2 ^ 36)%N with 68719476736%N. lia. }
    rewrite N.log2_pow2 in H by lia. lia.
  - change (36 ^ N.of_nat 8)%N with 2821109907456%N. lia.
  - left. change (36 ^ N.of_nat 7)%N with 78364164096%N. lia.
Qed.

(* ================================================================== *)
(** ** Properties of the sessions *)

Lemma st_one_well_formed : well_formed st_one.
Proof.
  split; [|split; [exists []; reflexivity | left; reflexivity]].
  exists [task_a]. split; [reflexivity|].
  constructor; [|constructor]. split; [reflexivity | discriminate].
Qed.

(** X1. A session keeps its list well-formed: starting from a state whose
    list holds records as [addTask] builds them (string [id], [text] and
    [created_at]) with trimmed, non-empty texts, whose edit buffer is a
    string and whose editing pointer is [null] or a string, every sequence
    of events the interface offers ends in such a state. *)
Theorem session_keeps_well_formed (st0 st : State) :
  well_formed st0 -> ui_reachable st0 st -> well_formed st.
Proof. apply ui_reachable_well_formed. Qed.

Lemma session_keeps_well_formed_witness : well_formed st_two.
Proof.
  apply (session_keeps_well_formed st_one st_two st_one_well_formed).
  apply (ui_event st_one st_one (AddClick env0) VUndef st_two).
  - apply ui_start.
  - exact I.
  - reflexivity.
Defined.

(** X2. In a session that starts from the empty list no handler throws:
    whatever events came before, every event the interface offers is handled
    and its handler returns [undefined]. *)
Theorem session_handlers_return (st : State) (ev : event) :
  ui_reachable initial_state st -> offered st ev ->
  exists st', handle ev st = Normal (VUndef, st').
Proof.
  intros Hreach Hoff.
  pose proof (ui_reachable_well_formed initial_state st
                initial_state_well_formed Hreach) as Hwf.
  destruct (handle_well_formed ev st Hwf Hoff) as (st' & Hh & _).
  exists st'. exact Hh.
Qed.

Lemma session_handlers_return_witness :
  exists st', handle (DeleteClick str_a) initial_state = Normal (VUndef, st').
Proof.
  apply (session_handlers_return initial_state (DeleteClick str_a)).
  - apply ui_start.
  - exact I.
Defined.







(** X6. Blank texts never reach the store either: when the persisting
    effect is up to date, an add with a blank input leaves the whole world
    (state, store, console) as it was, and a commit with a blank edit buffer
    only clears the editing pointer and the buffer. *)
Theorem blank_text_writes_nothing n2s (e : Env) (i raw : jsstring) (w : World) :
  effect_deps w = Some (tasks_ref (state w)) ->
  (trim (input (state w)) = [] ->
   dispatch n2s (addTask e) w = (Normal VUndef, w)) /\
  (editingText (state w) = VStr raw -> trim raw = [] ->
   dispatch n2s (saveEdit i) w
   = (Normal VUndef,
      set_state (setEditingText (VStr []) (setEditingId VNull (state w))) w)).
Proof.
  intros Hd. split.
  - intros Hb.
    rewrite (dispatch_unchanged_list n2s (addTask e) w VUndef (state w) Hd
               (addTask_blank e (state w) Hb) eq_refl).
    rewrite set_state_same. reflexivity.
  - intros Ht Hb.
    apply dispatch_unchanged_list; [assumption | | reflexivity].
    apply (saveEdit_records_blank i raw (state w) Ht Hb).
Qed.

Lemma blank_text_writes_nothing_witness :
  dispatch number_as_read (addTask env0) world_blank = (Normal VUndef, world_blank).
Proof.
  apply (proj1 (blank_text_writes_nothing number_as_read env0 str_a []
                  world_blank eq_refl)).
  reflexivity.
Defined.

(* ================================================================== *)
(** ** Properties of mounting *)

(** X7. Mounting ends as the render of the loaded list ends: whatever the
    store holds and allows, either the list stays empty and mounting
    completes, or the stored text parses to the list now in the state and
    mounting completes when the component renders with that list and throws
    what that render throws when it does not. Nothing else makes mounting
    throw. *)
Theorem mount_ends_as_render n2s (s : localStorage.t) :
  exists c w,
    mount n2s s = (c, w) /\
    ((c = Normal tt /\ tasks (state w) = VArr []) \/
     exists raw,
       localStorage.find STORAGE_KEY (localStorage.items s) = Some raw /\
       JSON.parse raw = Normal (tasks (state w)) /\
       c = match TodoAppExecutable (setTasks (tasks (state w)) initial_state) with
           | Normal _ => Normal tt
           | Throw e => Throw e
           end).
Proof.
  destruct (load_effect_cases s) as (w1 & Hload & _ & _ & Hcases).
  destruct (mount_as_render n2s s w1 Hload) as (w & Hmount & Hst).
  eexists _, w. split; [exact Hmount|]. rewrite Hst.
  destruct Hcases as [(-> & _) | [(-> & _) | [(raw & e & -> & _) |
                     (raw & v & -> & _ & _ & Hf & _ & Hp)]]]; auto.
  right. exists raw. auto.
Qed.

(** X8. When mounting completes with a store that accepts writes, the
    store mirrors the installed list, whatever was stored before: it holds
    the text of the list and the persisting effect is up to date. *)
Theorem mount_mirrors_store n2s (s : localStorage.t) (w : World) :
  localStorage.writable s = true ->
  mount n2s s = (Normal tt, w) ->
  mirrored n2s w.
Proof.
  intros Hw Hmount.
  destruct (load_effect_cases s) as (w1 & Hload & Hsto & Hdeps & Hcases).
  assert (Hstate : state w1 = initial_state \/
                   exists v, state w1 = setTasks v initial_state).
  { destruct Hcases as [(H & _) | [(H & _) | [(raw & e & H & _) |
                       (raw & v & H & _)]]]; eauto. }
  destruct (TodoAppExecutable (state w1)) as [[]|e] eqn:Hrender.
  - destruct (mount_accepted n2s s w1 Hw Hload Hsto Hdeps Hstate Hrender)
      as (w' & Hm & Hst & _ & Hd & _ & _ & Hf & _).
    rewrite Hmount in Hm. injection Hm as <-.
    split; rewrite Hst; assumption.
  - destruct (mount_rejected n2s s w1 e Hw Hload Hsto Hrender) as (w' & Hm & _).
    rewrite Hmount in Hm. discriminate.
Qed.

Lemma mount_mirrors_store_witness :
  mirrored number_as_read
    (snd (mount number_as_read (storage_with raw_invalid))).
Proof.
  apply (mount_mirrors_store number_as_read (storage_with raw_invalid)).
  - reflexivity.
  - reflexivity.
Defined.

(** X9. A stored text that does not parse is lost at startup: with a
    readable store that accepts writes, mounting logs one load failure,
    starts from the empty list and overwrites the stored text with the text
    of the empty list. *)
Theorem mount_overwrites_unparseable_store n2s (s : localStorage.t)
    (raw : jsstring) (e : exn) :
  localStorage.readable s = true ->
  localStorage.writable s = true ->
  localStorage.find STORAGE_KEY (localStorage.items s) = Some raw ->
  raw <> [] ->
  JSON.parse raw = Throw e ->
  exists w,
    mount n2s s = (Normal tt, w) /\
    tasks (state w) = VArr [] /\
    console w = [(msg_load, e)] /\
    localStorage.find STORAGE_KEY (localStorage.items (storage w))
    = Some (store_text n2s (VArr [])).
Proof.
  intros Hr Hw Hf Hne Hp.
  destruct (load_effect_cases s) as (w1 & Hload & Hsto & Hdeps & Hcases).
  assert (Hc : state w1 = initial_state /\ console w1 = [(msg_load, e)]).
  { destruct Hcases as [(_ & _ & H) | [(_ & _ & _ & [H | H]) |
                       [(raw' & e' & H1 & H2 & _ & Hf' & _ & Hp') |
                        (raw' & v & _ & _ & _ & Hf' & _ & Hp')]]];
      try congruence.
    rewrite Hf in Hf'. injection Hf' as <-.
    rewrite Hp in Hp'. injection Hp' as <-. auto. }
  destruct Hc as [Hst1 Hcon1].
  assert (Hrender : TodoAppExecutable (state w1) = Normal tt)
    by (rewrite Hst1; reflexivity).
  destruct (mount_accepted n2s s w1 Hw Hload Hsto Hdeps (or_introl Hst1) Hrender)
    as (w & Hm & Hst & Hcon & _ & _ & _ & Hfind & _).
  exists w. split; [assumption|].
  rewrite Hst, Hcon, Hfind, Hst1, Hcon1. repeat split.
Qed.

Lemma mount_overwrites_unparseable_store_witness :
  exists w,
    mount number_as_read (storage_with raw_truncated) = (Normal tt, w) /\
    tasks (state w) = VArr [] /\
    console w = [(msg_load, SyntaxError)] /\
    localStorage.find STORAGE_KEY (localStorage.items (storage w))
    = Some [91%N; 93%N].
Proof.
  apply (mount_overwrites_unparseable_store number_as_read
           (storage_with raw_truncated) raw_truncated SyntaxError);
    try reflexivity; discriminate.
Defined.

(** X10. What mounting writes for a stored list: with a readable store
    that accepts writes and holds a non-empty text that parses to [v],
    mounting first writes the text of the empty list. When the component
    renders with [v], it then writes the text of [v]: two writes, nothing
    logged, the store ends with the text of [v]. When that render throws,
    the mount throws with it and the first write stays its only one: the
    store is left holding the text of the empty list. *)
Theorem mount_rewrites_loaded_list n2s (s : localStorage.t)
    (raw : jsstring) (v : value) :
  localStorage.readable s = true ->
  localStorage.writable s = true ->
  localStorage.find STORAGE_KEY (localStorage.items s) = Some raw ->
  raw <> [] ->
  JSON.parse raw = Normal v ->
  (TodoAppExecutable (setTasks v initial_state) = Normal tt ->
   exists w,
     mount n2s s = (Normal tt, w) /\
     tasks (state w) = v /\
     console w = [] /\
     localStorage.setItem_calls (storage w)
     = localStorage.setItem_calls s
         ++ [(STORAGE_KEY, store_text n2s (VArr []));
             (STORAGE_KEY, store_text n2s v)] /\
     localStorage.find STORAGE_KEY (localStorage.items (storage w))
     = Some (store_text n2s v)) /\
  (forall e,
     TodoAppExecutable (setTasks v initial_state) = Throw e ->
     exists w,
       mount n2s s = (Throw e, w) /\
       localStorage.setItem_calls (storage w)
       = localStorage.setItem_calls s
           ++ [(STORAGE_KEY, store_text n2s (VArr []))] /\
       localStorage.find STORAGE_KEY (localStorage.items (storage w))
       = Some (store_text n2s (VArr []))).
Proof.
  intros Hr Hw Hf Hne Hp.
  destruct (load_effect_cases s) as (w1 & Hload & Hsto & Hdeps & Hcases).
  assert (Hc : state w1 = setTasks v initial_state /\ console w1 = []).
  { destruct Hcases as [(_ & _ & H) | [(_ & _ & _ & [H | H]) |
                       [(raw' & e' & _ & _ & _ & Hf' & _ & Hp') |
                        (raw' & v' & H1 & H2 & _ & Hf' & _ & Hp')]]];
      try congruence.
    rewrite Hf in Hf'. injection Hf' as <-.
    rewrite Hp in Hp'. injection Hp' as <-. auto. }
  destruct Hc as [Hst1 Hcon1]. split.
  - intros Hrender. rewrite <- Hst1 in Hrender.
    destruct (mount_accepted n2s s w1 Hw Hload Hsto Hdeps
                (or_intror (ex_intro _ v Hst1)) Hrender)
      as (w & Hm & Hst & Hcon & _ & _ & _ & Hfind & Hcalls).
    exists w. split; [assumption|].
    rewrite Hst, Hcon, Hfind, Hcalls, Hst1, Hcon1. repeat split.
  - intros e Hrender. rewrite <- Hst1 in Hrender.
    destruct (mount_rejected n2s s w1 e Hw Hload Hsto Hrender)
      as (w & Hm & _ & _ & Hfind & Hcalls).
    exists w. auto.
Qed.

Lemma mount_rewrites_loaded_list_witness :
  (exists w,
     mount number_as_read (storage_with (tasks_text [task_a])) = (Normal tt, w) /\
     tasks (state w) = VArr [task_value task_a] /\
     localStorage.setItem_calls (storage w)
     = [(STORAGE_KEY, [91%N; 93%N]); (STORAGE_KEY, tasks_text [task_a])]) /\
  (exists w,
     mount number_as_read (storage_with raw_null) = (Throw TypeError, w) /\
     localStorage.find STORAGE_KEY (localStorage.items (storage w))
     = Some [91%N; 93%N]).
Proof.
  split.
  - destruct (proj1 (mount_rewrites_loaded_list number_as_read
                       (storage_with (tasks_text [task_a])) (tasks_text [task_a])
                       (VArr [task_value task_a])
                       eq_refl eq_refl eq_refl ltac:(discriminate) eq_refl)
                eq_refl)
      as (w & Hm & Ht & _ & Hc & _).
    exists w. split; [exact Hm|]. split; [exact Ht | exact Hc].
  - destruct (proj2 (mount_rewrites_loaded_list number_as_read
                       (storage_with raw_null) raw_null VNull
                       eq_refl eq_refl eq_refl ltac:(discriminate) eq_refl)
                TypeError eq_refl)
      as (w & Hm & _ & Hf).
    exists w. split; [exact Hm | exact Hf].
Defined.

(** X11. What a session leaves in the store is what the next start shows:
    from a well-formed world whose store mirrors the list and allows reads
    and writes, after any sequence of offered events, mounting a new
    component on the store installs exactly the list the session ended
    with. *)
Theorem reload_restores_session n2s (w0 w : World) :
  well_formed (state w0) ->
  mirrored n2s w0 ->
  localStorage.readable (storage w0) = true ->
  localStorage.writable (storage w0) = true ->
  session n2s w0 w ->
  exists w2,
    mount n2s (storage w) = (Normal tt, w2) /\
    tasks (state w2) = tasks (state w).
Proof.
  intros Hwf0 Hm0 Hr0 Hw0 Hs.
  assert (Hinv : well_formed (state w) /\ mirrored n2s w /\
                 localStorage.readable (storage w) = true /\
                 localStorage.writable (storage w) = true).
  { induction Hs as [|w ev r w' _ IH Hoff Hd]; [auto|].
    destruct IH as (Hwf & Hm & Hr & Hw).
    destruct (handle_well_formed ev (state w) Hwf Hoff) as (st' & Hh & Hwf').
    destruct (dispatch_mirrored n2s ev w VUndef st' Hm Hw Hh)
      as (w1 & Hd1 & Hst & Hm1 & Hw1 & Hr1 & _).
    assert (Hd' : dispatch n2s (handle ev) w = (Normal VUndef, w1)) by exact Hd1.
    rewrite Hd in Hd'. injection Hd' as _ ->.
    split; [rewrite Hst; assumption|].
    split; [assumption|].
    split; [rewrite Hr1; assumption | assumption]. }
  destruct Hinv as (((ts & Hl & _) & _) & [_ Hfind] & Hr & Hw).
  rewrite Hl in Hfind. unfold store_text in Hfind.
  rewrite stringify_tasks in Hfind.
  destruct (mount_installs n2s (storage w) (tasks_text ts)
              (VArr (List.map task_value ts)) Hr Hfind
              (tasks_text_not_empty ts) (parse_tasks_text ts)
              (tasks_render (setTasks (VArr (List.map task_value ts)) initial_state)
                 ts [] eq_refl eq_refl))
    as (w2 & Hmount & Ht).
  exists w2. split; [assumption|]. rewrite Hl. assumption.
Qed.

Lemma reload_restores_session_witness :
  exists w w2,
    dispatch number_as_read (handle (AddClick env0)) world_one
    = (Normal VUndef, w) /\
    mount number_as_read (storage w) = (Normal tt, w2) /\
    tasks (state w2) = VArr [task_value task_a; task_value task_y].
Proof.
  destruct (dispatch number_as_read (handle (AddClick env0)) world_one)
    as [r w] eqn:Hd.
  assert (Hr : r = Normal VUndef /\ tasks (state w) 
               = VArr [task_value task_a; task_value task_y]).
  { vm_compute in Hd. injection Hd as <- <-. split; reflexivity. }
  destruct Hr as [-> Ht].
  destruct (reload_restores_session number_as_read world_one w)
    as (w2 & Hm & Ht2).
  - exact st_one_well_formed.
  - split; reflexivity.
  - reflexivity.
  - reflexivity.
  - apply (session_event number_as_read world_one world_one (AddClick env0)
             VUndef w).
    + apply session_start.
    + exact I.
    + exact Hd.
  - exists w, w2. split; [reflexivity|]. split; [exact Hm|].
    rewrite Ht2. exact Ht.
Defined.

(* ================================================================== *)
(** ** The renders of a session *)

Lemma well_formed_renders (st : State) :
  well_formed st -> TodoAppExecutable st = Normal tt.
Proof.
  intros ((ts & Hl & _) & (buf & Hb) & _). exact (tasks_render st ts buf Hl Hb).
Qed.

(** When the state a handler leaves renders, the event with its render is
    the event with the effects of that render. *)
Lemma on_event_as_dispatch n2s (h : handler) (w : World) r st' :
  h (state w) = Normal (r, st') ->
  TodoAppExecutable st' = Normal tt ->
  on_event n2s h w = dispatch n2s h w.
Proof.
  intros Hh Hr. unfold on_event, dispatch, mbind, render. rewrite Hh.
  cbn [state set_state]. rewrite Hr. reflexivity.
Qed.

Lemma dispatch_state n2s (h : handler) (w : World) r st' :
  h (state w) = Normal (r, st') ->
  exists w', dispatch n2s h w = (Normal r, w') /\ state w' = st'.
Proof.
  intros Hh. unfold dispatch, mbind. rewrite Hh.
  destruct (commit_effects_returns n2s (set_state st' w)) as (w' & -> & Hs).
  exists w'. split; [reflexivity | exact Hs].
Qed.

Lemma session_well_formed n2s (w0 w : World) :
  well_formed (state w0) -> session n2s w0 w -> well_formed (state w).
Proof.
  intros H0. induction 1 as [|w ev r w' _ IH Hoff Hd]; [assumption|].
  destruct (handle_well_formed ev (state w) IH Hoff) as (st' & Hh & Hwf).
  destruct (dispatch_state n2s (handle ev) w VUndef st' Hh) as (w1 & Hd1 & Hs).
  rewrite Hd in Hd1. injection Hd1 as _ ->. rewrite Hs. exact Hwf.
Qed.

(** X19. No render of a session throws: in a session that started from a
    well-formed state the component renders in every state it goes through,
    and every offered event is handled, renders again and leaves the world
    that the handler and the effects of that render make. *)
Theorem session_renders n2s (w0 w : World) (ev : event) :
  well_formed (state w0) ->
  session n2s w0 w ->
  offered (state w) ev ->
  TodoAppExecutable (state w) = Normal tt /\
  exists w',
    on_event n2s (handle ev) w = (Normal VUndef, w') /\
    dispatch n2s (handle ev) w = (Normal VUndef, w') /\
    TodoAppExecutable (state w') = Normal tt.
Proof.
  intros H0 Hs Hoff.
  pose proof (session_well_formed n2s w0 w H0 Hs) as Hwf.
  split; [apply well_formed_renders; exact Hwf|].
  destruct (handle_well_formed ev (state w) Hwf Hoff) as (st' & Hh & Hwf').
  destruct (dispatch_state n2s (handle ev) w VUndef st' Hh) as (w' & Hd & Hst).
  exists w'.
  rewrite (on_event_as_dispatch n2s (handle ev) w VUndef st' Hh
             (well_formed_renders st' Hwf')).
  split; [exact Hd|]. split; [exact Hd|].
  rewrite Hst. apply well_formed_renders. exact Hwf'.
Qed.

Lemma session_renders_witness :
  exists w',
    on_event number_as_read (handle (AddClick env0)) world_one
    = (Normal VUndef, w') /\
    TodoAppExecutable (state w') = Normal tt.
Proof.
  destruct (session_renders number_as_read world_one world_one (AddClick env0)
              st_one_well_formed (session_start number_as_read world_one) I)
    as (_ & w' & Hon & _ & Hr).
  exists w'. split; [exact Hon | exact Hr].
Defined.

(* ================================================================== *)
(** ** How the handlers compose *)

(** X12. Deleting the task just added: on a list of records and a
    non-blank input, [add] followed by [delete] of the id it made removes
    the new task together with every older task that has the same id; when
    no older task has that id the list is again what it was before the
    add. *)
Theorem add_then_delete (e : Env) (st : State)
    (os : list (list (jsstring * value))) :
  tasks st = VArr (List.map VObj os) ->
  trim (input st) <> [] ->
  exists st1 st2,
    addTask e st = Normal (VUndef, st1) /\
    deleteTask (makeId e) st1 = Normal (VUndef, st2) /\
    tasks st2
    = VArr (List.map VObj (filter (fun o => negb (has_id (makeId e) o)) os)) /\
    ((forall o, In o os -> has_id (makeId e) o = false) ->
     tasks st2 = tasks st).
Proof.
  intros Hl Hne.
  set (t := {| id := makeId e; text := trim (input st);
               created_at := Date_toISOString e |}).
  assert (Hadd : addTask e st
                 = Normal (VUndef,
                           setInput []
                             (setTasks (VArr (List.map VObj (os ++ [task_props t])))
                                       st))).
  { unfold addTask.
    destruct (str_eqb (trim (input st)) []) eqn:E;
      [apply str_eqb_nil in E; contradiction|].
    rewrite Hl. cbn [iterate bind]. rewrite map_app. reflexivity. }
  eexists _, _. split; [exact Hadd|].
  split; [apply deleteTask_records; reflexivity|].
  assert (Hf : filter (fun o => negb (has_id (makeId e) o)) (os ++ [task_props t])
               = filter (fun o => negb (has_id (makeId e) o)) os).
  { rewrite filter_app. cbn [filter].
    rewrite has_id_task_props. cbn [id t]. rewrite str_eqb_refl.
    cbn [negb]. apply app_nil_r. }
  cbn [tasks setTasks]. rewrite Hf. split; [reflexivity|].
  intros Hfresh. rewrite Hl. do 2 f_equal.
  apply filter_none. intros o Ho. rewrite (Hfresh o Ho). reflexivity.
Qed.

Lemma add_then_delete_witness :
  exists st1 st2,
    addTask env0 st_one = Normal (VUndef, st1) /\
    deleteTask (makeId env0) st1 = Normal (VUndef, st2) /\
    tasks st2 = tasks st_one.
Proof.
  destruct (add_then_delete env0 st_one
              [[(key_id, VStr str_a); (key_text, VStr str_x);
                (key_created_at, VStr [])]] eq_refl)
    as (st1 & st2 & Ha & Hd & _ & Hsame); [discriminate|].
  exists st1, st2. split; [exact Ha|]. split; [exact Hd|].
  apply Hsame. intros o [<- | []]. reflexivity.
Defined.

(** X13. Escape discards an edit: from a state with an idle pointer and an
    empty edit buffer, starting to edit a record, typing any text and
    pressing Escape gives back the very state the edit started from, list
    identity included. *)
Theorem escape_discards_edit (st : State) (o : list (jsstring * value))
    (s i : jsstring) :
  editingId st = VNull ->
  editingText st = VStr [] ->
  exists st1 st2,
    startEdit (VObj o) st = Normal (VUndef, st1) /\
    editInput_onChange s st1 = Normal (VUndef, st2) /\
    onEditKeyDown Escape i st2 = Normal (VUndef, st).
Proof.
  intros Hid Hbuf. eexists _, _.
  split; [reflexivity|]. split; [reflexivity|].
  destruct st as [t r inp eid etx]. cbn in Hid, Hbuf. subst eid etx.
  reflexivity.
Qed.

Lemma escape_discards_edit_witness :
  exists st1 st2,
    startEdit (task_value task_a) st_one = Normal (VUndef, st1) /\
    editInput_onChange str_y st1 = Normal (VUndef, st2) /\
    onEditKeyDown Escape str_a st2 = Normal (VUndef, st_one).
Proof.
  exact (escape_discards_edit st_one (task_props task_a) str_y str_a
           eq_refl eq_refl).
Defined.

(** X14. Committing an edit without typing: in a well-formed list whose
    ids are all different, starting to edit a task and committing at once
    leaves every task as it was and the pointer idle. *)
Theorem edit_without_typing (st : State) (ts : list Task) (t : Task) :
  tasks st = VArr (List.map task_value ts) ->
  Forall trimmed_text ts ->
  NoDup (List.map id ts) ->
  In t ts ->
  exists st1 st2,
    startEdit (task_value t) st = Normal (VUndef, st1) /\
    Editing (id t) st1 /\
    saveEdit (id t) st1 = Normal (VUndef, st2) /\
    tasks st2 = tasks st /\
    Idle st2.
Proof.
  intros Hl Hall Hnd Hin.
  rewrite Forall_forall in Hall. destruct (Hall t Hin) as [Htrim Hne].
  eexists _, _. split; [reflexivity|]. split; [reflexivity|].
  rewrite (saveEdit_tasks (id t) (text t) _ ts).
  - split; [reflexivity|]. split; [|reflexivity].
    cbn [tasks setEditingText setEditingId setTasks]. rewrite Hl.
    do 2 f_equal. rewrite <- (map_id ts) at 2. apply map_ext_in.
    intros u Hu. destruct (str_eqb (id u) (id t)) eqn:E; [|reflexivity].
    apply str_eqb_eq in E.
    rewrite (NoDup_ids_same ts t u Hnd Hin Hu E), Htrim.
    apply with_text_same.
  - exact Hl.
  - reflexivity.
  - rewrite Htrim. exact Hne.
Qed.

Lemma edit_without_typing_witness :
  exists st1 st2,
    startEdit (task_value task_a) st_one = Normal (VUndef, st1) /\
    saveEdit str_a st1 = Normal (VUndef, st2) /\
    tasks st2 = tasks st_one.
Proof.
  destruct (edit_without_typing st_one [task_a] task_a eq_refl)
    as (st1 & st2 & Hs & _ & Hc & Ht & _).
  - constructor; [|constructor]. split; [reflexivity | discriminate].
  - constructor; [intros [] | constructor].
  - left. reflexivity.
  - exists st1, st2. auto.
Defined.

(** X15. Deleting an id that no task has still rewrites the store: on a
    list of records none of which has the id, [delete] leaves the list as it
    was, and yet, being a new array, it makes the persisting effect write
    the same text once more. *)
Theorem delete_of_absent_id n2s (i : jsstring) (w : World)
    (os : list (list (jsstring * value))) :
  tasks (state w) = VArr (List.map VObj os) ->
  (forall o, In o os -> has_id i o = false) ->
  effect_deps w = Some (tasks_ref (state w)) ->
  exists w',
    dispatch n2s (deleteTask i) w = (Normal VUndef, w') /\
    tasks (state w') = tasks (state w) /\
    localStorage.setItem_calls (storage w')
    = localStorage.setItem_calls (storage w)
        ++ [(STORAGE_KEY, store_text n2s (tasks (state w)))].
Proof.
  intros Hl Hno Hd.
  pose proof (deleteTask_records i (state w) os Hl) as Hdel.
  rewrite (filter_none (fun o => negb (has_id i o)) os) in Hdel
    by (intros o Ho; rewrite (Hno o Ho); reflexivity).
  destruct (dispatch_replaced_list n2s (deleteTask i) w VUndef _ Hd Hdel eq_refl)
    as (w' & Hdis & Hst & _ & Hsto & _).
  exists w'. split; [assumption|].
  destruct (setItem_flags STORAGE_KEY
              (store_text n2s (tasks (setTasks (VArr (List.map VObj os)) (state w))))
              (storage w)) as (_ & _ & Hc).
  rewrite Hst, Hsto, Hc. cbn [tasks setTasks]. rewrite Hl. split; reflexivity.
Qed.

Lemma delete_of_absent_id_witness :
  exists w',
    dispatch number_as_read (deleteTask str_y) world_one = (Normal VUndef, w') /\
    tasks (state w') = tasks (state world_one) /\
    localStorage.setItem_calls (storage w')
    = [(STORAGE_KEY, tasks_text [task_a])].
Proof.
  destruct (delete_of_absent_id number_as_read str_y world_one
              [task_props task_a] eq_refl)
    as (w' & Hd & Ht & Hc).
  - intros o [<- | []]. reflexivity.
  - reflexivity.
  - exists w'. split; [exact Hd|]. split; [exact Ht | exact Hc].
Defined.

(* ================================================================== *)
(** ** Lists that a load can leave *)

Lemma filterM_returns (i : jsstring) (l : list value) :
  (exists r, filterM (fun t => x <- Get t key_id ;;
                               Normal (negb (strict_eq_str x i))) l = Normal r)
  <-> Forall (fun t => t <> VUndef /\ t <> VNull) l.
Proof.
  induction l as [|t l IH]; cbn [filterM].
  - split; [constructor | eauto].
  - split.
    + intros [r H].
      destruct (Get t key_id) as [x|] eqn:Eg; [|discriminate].
      cbn [bind] in H.
      destruct (filterM _ l) as [r'|] eqn:Ef; [|discriminate].
      constructor.
      * destruct t; try discriminate; split; discriminate.
      * apply IH. eauto.
    + intros H. inversion H as [|? ? [Hu Hn] Hl]; subst.
      apply IH in Hl. destruct Hl as [r' Hr'].
      destruct t; try contradiction; cbn [Get bind]; rewrite Hr';
        cbn [bind]; eauto.
Qed.

Lemma forM_task_element_elements (l : list value) :
  forM task_element l = Normal tt ->
  Forall (fun t => t <> VUndef /\ t <> VNull) l.
Proof.
  induction l as [|t l IH]; cbn [forM]; [constructor|].
  intros H.
  destruct (task_element t) as [[]|] eqn:Et; [|discriminate].
  constructor; [|apply IH; exact H].
  destruct t; try discriminate; split; discriminate.
Qed.

Lemma mapM_returns (f : value -> value -> value) (l : list value) :
  Forall (fun t => t <> VUndef /\ t <> VNull) l ->
  exists r, mapM (fun t => x <- Get t key_id ;; Normal (f x t)) l = Normal r.
Proof.
  induction 1 as [|t l [Hu Hn] _ [r IH]]; cbn [mapM]; [eauto|].
  destruct t; try contradiction; cbn [Get bind]; rewrite IH; cbn [bind]; eauto.
Qed.

(** X16. On a component that has rendered the handlers go through: in every
    state in which the component renders, the task list is an array without
    [undefined] or [null] elements, so that [add] and [delete] return, and
    so does a commit whenever the edit buffer is a string. *)
Theorem handlers_return_when_rendered (st : State) :
  TodoAppExecutable st = Normal tt ->
  (exists l, tasks st = VArr l /\
             Forall (fun t => t <> VUndef /\ t <> VNull) l) /\
  (forall e, exists st', addTask e st = Normal (VUndef, st')) /\
  (forall i, exists st', deleteTask i st = Normal (VUndef, st')) /\
  (forall i raw, editingText st = VStr raw ->
                 exists st', saveEdit i st = Normal (VUndef, st')).
Proof.
  unfold TodoAppExecutable. intros H.
  destruct (tasks st) as [| | | | |l|] eqn:Hl; try discriminate.
  destruct (forM task_element l) as [[]|] eqn:Hel; [|discriminate].
  apply forM_task_element_elements in Hel.
  split; [|split; [|split]].
  - exists l. split; [reflexivity | exact Hel].
  - intros e. unfold addTask. rewrite Hl.
    destruct (str_eqb (trim (input st)) []); cbn [iterate bind]; eauto.
  - intros i. unfold deleteTask, Array_filter. rewrite Hl.
    destruct (proj2 (filterM_returns i l) Hel) as [r ->]. cbn [bind]. eauto.
  - intros i raw Hraw. unfold saveEdit, Array_map. rewrite Hraw, Hl.
    destruct (str_eqb (trim raw) []); [eauto|].
    destruct (mapM_returns
                (fun x t => if strict_eq_str x i
                            then VObj (obj_define (own_props t) key_text
                                         (VStr (trim raw)))
                            else t) l Hel) as [r ->].
    cbn [bind]. eauto.
Qed.

Lemma handlers_return_when_rendered_witness :
  exists st', deleteTask str_y st_one = Normal (VUndef, st').
Proof.
  apply (proj1 (proj2 (proj2 (handlers_return_when_rendered st_one eq_refl)))).
Defined.

(** X18. Committing an edit of a record without a string text throws: on
    a record whose [text] is missing or is not a string (a load can install
    one), [startEdit] returns and leaves the edit buffer holding that
    non-string, and a commit that follows at once throws a [TypeError],
    whatever id it is given. *)
Theorem commit_throws_without_text (st : State) (o : list (jsstring * value)) :
  (forall s, record_field key_text o <> VStr s) ->
  exists st1,
    startEdit (VObj o) st = Normal (VUndef, st1) /\
    editingText st1 = record_field key_text o /\
    forall i, saveEdit i st1 = Throw TypeError.
Proof.
  intros Hns. eexists. split; [reflexivity|]. split; [reflexivity|].
  intros i. unfold saveEdit. cbn [editingText setEditingText].
  fold (record_field key_text o).
  destruct (record_field key_text o) as [| | | |s| |] eqn:E; try reflexivity.
  exfalso. apply (Hns s). reflexivity.
Qed.

Lemma commit_throws_without_text_witness :
  exists st1,
    startEdit (VObj [(key_id, VStr str_a)]) st_one = Normal (VUndef, st1) /\
    saveEdit str_a st1 = Throw TypeError.
Proof.
  destruct (commit_throws_without_text st_one [(key_id, VStr str_a)])
    as (st1 & Hs & _ & Hc).
  - intros s. discriminate.
  - exists st1. split; [exact Hs | apply Hc].
Defined.

(* ================================================================== *)
(** ** Identifiers across milliseconds *)

(** X17. Between 1972 and 2059 two calls of [add] that read different
    milliseconds create different ids, whatever their random draws. *)
Theorem makeId_differs_across_milliseconds (e1 e2 : Env) :
  eight_digit_clock (Date_now e1) ->
  eight_digit_clock (Date_now e2) ->
  Date_now e1 <> Date_now e2 ->
  makeId e1 <> makeId e2.
Proof.
  intros H1 H2 Hne Heq. apply Hne. unfold makeId in Heq.
  apply app_inj_length in Heq.
  - apply toString36_inj. apply Heq.
  - rewrite !toString36_eight_digits by assumption. reflexivity.
Qed.

Lemma makeId_differs_across_milliseconds_witness : makeId env0 <> makeId env2.
Proof.
  apply (makeId_differs_across_milliseconds env0 env2).
  - unfold eight_digit_clock. simpl. lia.
  - unfold eight_digit_clock. simpl. lia.
  - discriminate.
Defined.
